(** * NaturalL5: the L5 syntax tree and the runtime environment

    A shallow embedding of

    - the L5 syntax tree (the node classes with a checked constructor:
      [TemporalConstraint] and [RegulativeRuleConclusion], and the classes
      they are built from), and
    - [web-runtime-prototype/src/Environment.ts] (classes [FrameSymbol],
      [Frame] and [Environment]).

    JavaScript objects that are mutated in place and reachable from several
    places (the [Frame]s of an [Environment], above all its global frame)
    live in an explicit store; an [Environment] holds the locations of its
    frames.  Methods are computations in a state-and-exception monad over
    that store. *)

From Stdlib Require Import ZArith String Lia.
From stdpp Require Import base tactics decidable option numbers list.

Local Open Scope Z_scope.
Local Open Scope string_scope.
Local Open Scope list_scope.

(** ** JavaScript runtime: exceptions, [Maybe], [internal_assertion] *)

Module Js.

(** What a [throw] carries.  [InternalAssertionError] is what
    [internal_assertion] throws, with the fixed part of its message;
    [ThrownNull] is [throw null]; [TypeError] is a property access on
    [undefined].  [DanglingReference] has no JavaScript counterpart: it is
    the outcome of reading a store location that was never allocated, and
    is excluded by the well-formedness of the store. *)
Inductive exn : Type :=
| InternalAssertionError (message : string)
| ThrownNull
| TypeError
| DanglingReference.

Inductive outcome (A : Type) : Type :=
| Ok (a : A)
| Throw (e : exn).
Arguments Ok {A} a.
Arguments Throw {A} e.

(** [Maybe<T>] is [T | undefined]. *)
Definition Maybe (A : Type) : Type := option A.

(** [x != undefined] *)
Definition defined {A} (x : Maybe A) : bool :=
  match x with Some _ => true | None => false end.

(** Modelled from the spec: [utils.ts] (which declares
    [internal_assertion]) is not among the sources.  The spec calls these
    "assertion-based invariant checks" whose violation makes the operation
    fail: [internal_assertion(pred, message)] evaluates [pred()] and throws
    an error carrying [message] when it is false, and does nothing when it
    is true.  This is the store-free form used by constructors. *)
Definition internal_assertion_pure (pred : bool) (message : string)
  : outcome unit :=
  if pred then Ok tt else Throw (InternalAssertionError message).

(** A failure that the spec classifies as [ScopeError] (in the
    environment) or [ConstructionError] (in the syntax tree): a failed
    internal assertion. *)
Definition is_assertion_error (e : exn) : bool :=
  match e with InternalAssertionError _ => true | _ => false end.

Definition failed {A} (o : outcome A) : bool :=
  match o with Ok _ => false | Throw _ => true end.

Definition failed_assertion {A} (o : outcome A) : bool :=
  match o with Ok _ => false | Throw e => is_assertion_error e end.

End Js.
Import Js.

(** ** [token.ts] *)

Module Token.

Inductive TokenType : Type :=
| PARTY | WHERE | MUST | MEANS
| OBLIGATED | PERMITTED
| FULFILLED | PERFORMED
| IF | THEN | ELSE | TERNARY
| WITHIN | BETWEEN | BEFORE | BEFORE_ON | AFTER | AFTER_ON | ON
| ACTION | LEFT_ARROW | RIGHT_ARROW
| IDENTIFIER | SEMICOLON | DOUBLE_SEMICOLON | AND | OR | NOT | DOLLAR
| BACKTICK
| TRUE | FALSE
| PLUS | MINUS | STAR | SLASH
| COMMENT.

(** Numbers are modelled as integers: line and column numbers are. *)
Record Token : Type := {
  token_type : TokenType;
  literal : string;
  line : Z;
  begin_col : Z;
  end_col : Z
}.

End Token.

(** ** The L5 syntax tree

    Each class keeps its fields; [tag] is the class's string discriminant.
    The printing methods ([toString], [debug]) and the [src] getters are not
    modelled.  A [number] is carried as an integer: the tree only stores
    it. *)

Module L5.
Import Token.

Inductive LiteralType : Type :=
| LNumber (n : Z)
| LBoolean (b : bool)
| UnitLiteral (typename instance : string).

Record Identifier : Type := {
  identifier : string;
  id_tokens : list Token
}.

Record RelationalIdentifier : Type := {
  template : list string;
  instances : list Identifier;
  ri_tokens : list Token
}.

Inductive LogicalCompositionType : Type := AND | OR.
Inductive BinaryOpType : Type :=
| Add | Sub | Mul | Mod | Div | Gt | Ge | Lt | Le | Eq | Ne.
Inductive UnaryOpType : Type := Neg | Not.

Inductive Expression : Type :=
| Literal (value : LiteralType) (tokens : list Token)
| EIdentifier (i : Identifier)
| ERelationalIdentifier (r : RelationalIdentifier)
| ConditionalExpr (pred cons alt : Expression) (tokens : list Token)
| LogicalComposition (op : LogicalCompositionType)
    (first second : Expression) (tokens : list Token)
| BinaryOp (op : BinaryOpType) (first second : Expression)
    (tokens : list Token)
| UnaryOp (op : UnaryOpType) (first : Expression) (tokens : list Token).

Definition Action : Type := Expression.
Definition UnitExpression : Type := Expression.

Record RelativeTime : Type := {
  ndays : Z; nmonths : Z; nyears : Z;
  rt_tokens : list Token
}.

Record AbsoluteTime : Type := {
  days : Z; months : Z; years : Z;
  at_tokens : list Token
}.

(** [RelativeTime | AbsoluteTime] *)
Inductive Timestamp : Type :=
| TRelative (t : RelativeTime)
| TAbsolute (t : AbsoluteTime).

(** [timestamp.tag] *)
Definition timestamp_tag (t : Timestamp) : string :=
  match t with
  | TRelative _ => "RelativeTime"
  | TAbsolute _ => "AbsoluteTime"
  end.

Record TemporalConstraint : Type := {
  is_relative : bool;
  timestamp : Timestamp;
  tc_tokens : list Token
}.

(** [new TemporalConstraint(is_relative, timestamp, _tokens)] *)
Definition new_TemporalConstraint (is_relative : bool)
    (timestamp : Timestamp) (_tokens : list Token)
  : outcome TemporalConstraint :=
  match
    internal_assertion_pure
      (String.eqb (timestamp_tag timestamp)
                  (if is_relative then "RelativeTime" else "AbsoluteTime"))
      "is_relative does not match with the given timestamp"
  with
  | Throw e => Throw e
  | Ok _ =>
      Ok {| is_relative := is_relative;
            timestamp := timestamp;
            tc_tokens := _tokens |}
  end.

Inductive DeonticTemporalActionType : Type := DPermitted | DObligated.

Record DeonticTemporalAction : Type := {
  is_always : bool;
  dta_op : DeonticTemporalActionType;
  action : Action;
  temporal_constraint : Maybe TemporalConstraint;
  instance_tag : list UnitExpression;
  dta_tokens : list Token
}.

Record RevokeMarker : Type := { rm_token : list Token }.

(** [Expression | RevokeMarker] *)
Inductive MutationValue : Type :=
| MExpression (e : Expression)
| MRevoke (r : RevokeMarker).

Record Mutation : Type := {
  mut_id : RelationalIdentifier;
  mut_value : MutationValue
}.

Record RegulativeRuleInvocation : Type := {
  regulative_label : Identifier;
  args : list Expression;
  rri_tokens : list Token
}.

(** [RegulativeRuleInvocation | DeonticTemporalAction] *)
Inductive Conclusion : Type :=
| CInvocation (i : RegulativeRuleInvocation)
| CAction (a : DeonticTemporalAction).

Record RegulativeRuleConclusion : Type := {
  fulfilled : Maybe bool;
  performed : Maybe bool;
  mutations : list Mutation;
  conclusions : list Conclusion;
  rrc_tokens : list Token
}.

(** [x == true] for [x : Maybe<boolean>]: [undefined == true] and
    [false == true] are both false. *)
Definition eq_true (x : Maybe bool) : bool :=
  match x with Some true => true | _ => false end.

(** [new RegulativeRuleConclusion(fulfilled, performed, mutations,
    conclusions, _tokens)] *)
Definition new_RegulativeRuleConclusion (fulfilled performed : Maybe bool)
    (mutations : list Mutation) (conclusions : list Conclusion)
    (_tokens : list Token)
  : outcome RegulativeRuleConclusion :=
  match
    internal_assertion_pure
      (eq_true fulfilled || eq_true performed)
      "RegulativeRuleConclusion requires one of fulfilled or performed!"
  with
  | Throw e => Throw e
  | Ok _ =>
      Ok {| fulfilled := fulfilled;
            performed := performed;
            mutations := mutations;
            conclusions := conclusions;
            rrc_tokens := _tokens |}
  end.

End L5.


(** ** The syntax tree of the runtime, as far as the environment uses it *)

Module Ast.

(** Modelled from the spec: [web-runtime-prototype/src/AstNode.ts] is not
    among the sources.  A value is "a closed algebraic type: Number,
    Boolean, or UnitInstance{typename, instance_name}"; a number is carried
    as an integer, the environment only stores it. *)
Inductive LiteralType : Type :=
| Number (n : Z)
| Boolean (b : bool)
| UnitInstance (typename instance_name : string).

(** Modelled from the spec: the scope half of an address, which is the
    string [global] or an integer; the environment compares it with that
    string and otherwise indexes the frame stack with it. *)
Inductive Scope : Type :=
| global
| idx (i : Z).

#[global] Instance Scope_eq_dec : EqDecision Scope.
Proof. solve_decision. Defined.

(** Modelled from the spec: a resolved name is a symbol (a string) with an
    address, the pair of a scope and an integer slot; the environment reads
    them as the fields [sym] and [env_pos]. *)
Record ResolvedName : Type := {
  sym : string;
  env_pos : Scope * Z
}.

(** Modelled from the spec: a bare (unresolved) name; the environment
    reads its field [sym], here [name_sym]. *)
Record Name : Type := { name_sym : string }.

Inductive LogicalCompositionType : Type := AND | OR.
Inductive BinaryOpType : Type :=
| Add | Sub | Mul | Mod | Div | Gt | Ge | Lt | Le | Eq | Ne.
Inductive UnaryOpType : Type := Neg | Not.

(** Modelled from the spec: the sum type "Expression" of the data model
    ("Literal(Value), Identifier/ResolvedName, ConditionalExpr(pred, cons,
    alt), LogicalComposition(AND|OR, lhs, rhs), BinaryOp(op, lhs, rhs),
    UnaryOp(op, operand)").  The environment constructs [Literal]s and
    stores and returns the other nodes untouched. *)
Inductive AstNode : Type :=
| Literal (value : LiteralType)
| EName (n : Name)
| EResolvedName (n : ResolvedName)
| ConditionalExpr (pred cons alt : AstNode)
| LogicalComposition (op : LogicalCompositionType) (first second : AstNode)
| BinaryOp (op : BinaryOpType) (first second : AstNode)
| UnaryOp (op : UnaryOpType) (first : AstNode).

Definition Expression : Type := AstNode.

End Ast.

(** ** [Map<number, V>]

    A JavaScript [Map] keeps its entries in insertion order; [set] on a key
    that is present replaces the value in place, and on a new key appends an
    entry.  Keys are integers here (slot indices). *)

Module JsMap.
Section JsMap.
Context {V : Type}.

Definition t : Type := list (Z * V).

Definition empty : t := [].

Fixpoint get (m : t) (k : Z) : Maybe V :=
  match m with
  | [] => None
  | (k', v) :: m' => if Z.eqb k' k then Some v else get m' k
  end.

Definition has (m : t) (k : Z) : bool := defined (get m k).

Fixpoint set (m : t) (k : Z) (v : V) : t :=
  match m with
  | [] => [(k, v)]
  | (k', v') :: m' =>
      if Z.eqb k' k then (k', v) :: m' else (k', v') :: set m' k v
  end.

(** [m.entries()], in iteration order *)
Definition entries (m : t) : list (Z * V) := m.

(** [new Map(m)] *)
Definition copy (m : t) : t := m.

End JsMap.
Arguments t : clear implicits.
End JsMap.

(** ** The store of frames, and the monad of methods *)

Module Store.

Record FrameSymbol : Type := {
  sym : string;
  ast : Ast.AstNode
}.

(** A [Frame] object: its one field, the map of its slots. *)
Record Frame : Type := { frame_items : JsMap.t FrameSymbol }.

(** A reference to a [Frame] object. *)
Abbreviation loc := nat (only parsing).

(** The store: the [Frame] objects allocated so far, by location. *)
Abbreviation Heap := (list Frame) (only parsing).

Definition JS (A : Type) : Type := Heap -> outcome A * Heap.

Definition ret {A} (a : A) : JS A := fun h => (Ok a, h).

Definition throw {A} (e : exn) : JS A := fun h => (Throw e, h).

Definition bind {A B} (m : JS A) (k : A -> JS B) : JS B :=
  fun h =>
    match m h with
    | (Ok a, h') => k a h'
    | (Throw e, h') => (Throw e, h')
    end.

(** [new Frame(items)]: a fresh object. *)
Definition alloc (f : Frame) : JS loc :=
  fun h => (Ok (length h), h ++ [f]).

(** Reading the fields of the object at [l]. *)
Definition deref (l : loc) : JS Frame :=
  fun h =>
    match h !! l with
    | Some f => (Ok f, h)
    | None => (Throw DanglingReference, h)
    end.

(** Overwriting the object at [l] (a mutation of its map). *)
Definition store (l : loc) (f : Frame) : JS unit :=
  fun h =>
    match h !! l with
    | Some _ => (Ok tt, <[l := f]> h)
    | None => (Throw DanglingReference, h)
    end.

(** Modelled from the spec: [internal_assertion] of the absent [utils.ts]
    (see [Js.internal_assertion_pure]), as a method step: the store is left
    as it is whether the assertion holds or fails. *)
Definition internal_assertion (pred : bool) (message : string) : JS unit :=
  fun h => (internal_assertion_pure pred message, h).

(** [xs.map(f)], for an [f] with effects: left to right. *)
Fixpoint array_map {A B} (f : A -> JS B) (xs : list A) : JS (list B) :=
  match xs with
  | [] => ret []
  | x :: xs' =>
      bind (f x) (fun y =>
      bind (array_map f xs') (fun ys =>
      ret (y :: ys)))
  end.

(** [xs[i]] for a number [i]: [undefined] outside [0 .. length - 1]. *)
Definition array_get {A} (xs : list A) (i : Z) : Maybe A :=
  if Z.ltb i 0 then None else xs !! Z.to_nat i.

End Store.
Import Store.

Notation "'let!' x ':=' m 'in' k" := (bind m (fun x => k))
  (at level 10, x name, m at level 100, k at level 200).
Notation "'do!' m 'in' k" := (bind m (fun _ => k))
  (at level 10, m at level 100, k at level 200).

(** ** [class Frame] *)

Module Frame.

(** [new Frame(frame_items?)] *)
Definition new (items : Maybe (JsMap.t FrameSymbol)) : JS loc :=
  alloc {| frame_items := match items with
                          | Some m => m
                          | None => JsMap.empty
                          end |}.

Definition lookup (this : loc) (name : Ast.ResolvedName) : JS Ast.AstNode :=
  let query_sym := Ast.sym name in
  let frame_pos := snd (Ast.env_pos name) in
  let! self := deref this in
  let lookup := JsMap.get (frame_items self) frame_pos in
  do! internal_assertion (defined lookup)
        "Variable lookup frame out of range." in
  match lookup with
  | None => throw TypeError
  | Some l =>
      let '(sym, ast) := (sym l, ast l) in
      do! internal_assertion (String.eqb query_sym sym)
            "Variable lookup symbol mismatch." in
      ret ast
  end.

(** The [for ... of this.frame_items.entries()] loop of [lookup_name]. *)
Fixpoint lookup_name_entries (entries : list (Z * FrameSymbol))
    (name : Ast.Name) : Maybe Z :=
  match entries with
  | [] => None
  | (p2, s) :: rest =>
      if String.eqb (sym s) (Ast.name_sym name) then Some p2
      else lookup_name_entries rest name
  end.

Definition lookup_name (this : loc) (name : Ast.Name) : JS (Maybe Z) :=
  let! self := deref this in
  ret (lookup_name_entries (JsMap.entries (frame_items self)) name).

Definition copy (this : loc) : JS loc :=
  let! self := deref this in
  new (Some (JsMap.copy (frame_items self))).

Definition set_var (this : loc) (name : Ast.ResolvedName)
    (result : Ast.LiteralType) : JS unit :=
  let frame_pos := snd (Ast.env_pos name) in
  let! self := deref this in
  let lookup := JsMap.get (frame_items self) frame_pos in
  do! internal_assertion (defined lookup)
        "Variable setting frame out of range." in
  match lookup with
  | None => throw TypeError
  | Some l =>
      do! internal_assertion (String.eqb (sym l) (Ast.sym name))
            "Variable setting symbol mismatch." in
      store this
        {| frame_items :=
             JsMap.set (frame_items self) frame_pos
               {| sym := Ast.sym name; ast := Ast.Literal result |} |}
  end.

Definition add_var (this : loc) (name : Ast.ResolvedName)
    (expr : Ast.Expression) : JS unit :=
  let! self := deref this in
  do! internal_assertion
        (negb (JsMap.has (frame_items self) (snd (Ast.env_pos name))))
        "Attempted to add variable that exists." in
  store this
    {| frame_items :=
         JsMap.set (frame_items self) (snd (Ast.env_pos name))
           {| sym := Ast.sym name; ast := expr |} |}.

End Frame.

(** ** [class Environment] *)

Module Environment.

(** An [Environment] object.  Its two fields are [readonly] and the array
    [frames] is never written after construction, so the object is a value;
    the frames it points to are in the store. *)
Record t : Type := {
  global_frame : loc;
  frames : list loc
}.

(** [new Environment(global_frame, frames?)] *)
Definition new (global_frame : loc) (frames : Maybe (list loc)) : t :=
  {| global_frame := global_frame;
     frames := match frames with Some fs => fs | None => [] end |}.

Definition empty : JS t :=
  let! g := Frame.new (Some JsMap.empty) in
  ret (new g None).

Definition lookup (this : t) (name : Ast.ResolvedName) : JS Ast.AstNode :=
  let frameidx := fst (Ast.env_pos name) in
  let! frame :=
    match frameidx with
    | Ast.global => ret (global_frame this)
    | Ast.idx frameidx =>
        let x := array_get (frames this) frameidx in
        do! internal_assertion (defined x)
              "Variable lookup env out of range." in
        match x with
        | Some x => ret x
        | None => throw TypeError
        end
    end in
  Frame.lookup frame name.

(** The [while (p1 > 0)] loop of [lookup_name]; [None] when it runs to its
    end without returning. *)
Fixpoint lookup_name_while (this : t) (name : Ast.Name) (p1 : nat)
  : JS (Maybe (Ast.Scope * Z)) :=
  match p1 with
  | O => ret None
  | S p1 =>
      match frames this !! p1 with
      | None => throw TypeError
      | Some f =>
          let! p2 := Frame.lookup_name f name in
          match p2 with
          | Some p2 => ret (Some (Ast.idx (Z.of_nat p1), p2))
          | None => lookup_name_while this name p1
          end
      end
  end.

Definition lookup_name (this : t) (name : Ast.Name) : JS (Ast.Scope * Z) :=
  let p1 := length (frames this) in
  let! found := lookup_name_while this name p1 in
  match found with
  | Some r => ret r
  | None =>
      let! p2 := Frame.lookup_name (global_frame this) name in
      match p2 with
      | Some p2 => ret (Ast.global, p2)
      | None =>
          do! internal_assertion true "not in env" in
          throw ThrownNull
      end
  end.

Definition copy (this : t) : JS t :=
  let! fs := array_map Frame.copy (frames this) in
  ret (new (global_frame this) (Some fs)).

Definition set_var (this : t) (name : Ast.ResolvedName)
    (result : Ast.LiteralType) : JS t :=
  let pos := Ast.env_pos name in
  let! new_env := copy this in
  let frameidx := fst pos in
  let! frame :=
    match frameidx with
    | Ast.global => ret (global_frame new_env)
    | Ast.idx frameidx =>
        let x := array_get (frames new_env) frameidx in
        do! internal_assertion (defined x)
              "Variable setting env out of range." in
        match x with
        | Some x => ret x
        | None => throw TypeError
        end
    end in
  do! Frame.set_var frame name result in
  ret new_env.

Definition add_var_mut (this : t) (name : Ast.ResolvedName)
    (expr : Ast.Expression) : JS t :=
  let frames := frames this in
  let frameidx := fst (Ast.env_pos name) in
  let! frame :=
    match frameidx with
    | Ast.global => ret (global_frame this)
    | Ast.idx frameidx =>
        do! internal_assertion
              (Z.eqb frameidx (Z.of_nat (length frames) - 1))
              "Adding variable outside of current scope." in
        match array_get frames (Z.of_nat (length frames) - 1) with
        | Some x => ret x
        | None => throw TypeError
        end
    end in
  do! Frame.add_var frame name expr in
  ret this.

Definition add_var (this : t) (name : Ast.ResolvedName)
    (expr : Ast.Expression) : JS t :=
  let! new_env := copy this in
  do! add_var_mut new_env name expr in
  ret new_env.

Definition add_frame (this : t) : JS t :=
  let! new_frames := array_map Frame.copy (frames this) in
  let! f := Frame.new (Some JsMap.empty) in
  ret (new (global_frame this) (Some (new_frames ++ [f]))).

Definition remove_frame (this : t) : JS t :=
  do! internal_assertion (Nat.ltb 0 (length (frames this)))
        "Removing frame from an empty environment." in
  let! fs :=
    array_map Frame.copy
      (take (length (frames this) - 1) (frames this)) in
  ret (new (global_frame this) (Some fs)).

Definition is_global_scope (this : t) : bool :=
  Nat.eqb (length (frames this)) 0.

End Environment.

(** ** Stating the properties: well-formed stores, bindings, operations *)

Module Spec.
Import Environment.

(** Every frame of the environment is an allocated object. *)
Definition env_wf (h : Heap) (e : Environment.t) : Prop :=
  (global_frame e < length h)%nat /\
  Forall (fun l => (l < length h)%nat) (frames e).

(** The store holds the frames [fs] at the locations [ls]. *)
Definition holds (h : Heap) (ls : list loc) (fs : list Frame) : Prop :=
  Forall2 (fun l f => h !! l = Some f) ls fs.

(** The environment that [copy] builds in store [h]: the same global frame,
    and one new frame per frame of the stack, at the next free locations. *)
Definition copied (h : Heap) (e : Environment.t) : Environment.t :=
  {| global_frame := global_frame e;
     frames := seq (length h) (length (frames e)) |}.

(** The frame a scope index addresses: the global frame, or
    [frame_stack[idx]]. *)
Definition addressed_loc (e : Environment.t) (s : Ast.Scope) : option loc :=
  match s with
  | Ast.global => Some (global_frame e)
  | Ast.idx i => array_get (frames e) i
  end.

Definition addressed_frame (h : Heap) (e : Environment.t) (s : Ast.Scope)
  : option Frame :=
  match addressed_loc e s with
  | Some l => h !! l
  | None => None
  end.

(** What is stored at an address: the symbol and the node of the slot. *)
Definition binding_at (h : Heap) (e : Environment.t) (pos : Ast.Scope * Z)
  : option FrameSymbol :=
  match addressed_frame h e (fst pos) with
  | Some f => JsMap.get (frame_items f) (snd pos)
  | None => None
  end.

(** The three ways a resolved name can be wrong for an environment. *)
Definition scope_out_of_range (e : Environment.t) (n : Ast.ResolvedName)
  : Prop :=
  match fst (Ast.env_pos n) with
  | Ast.global => False
  | Ast.idx i => i < 0 \/ Z.of_nat (length (frames e)) <= i
  end.

Definition slot_unoccupied (h : Heap) (e : Environment.t)
    (n : Ast.ResolvedName) : Prop :=
  exists f, addressed_frame h e (fst (Ast.env_pos n)) = Some f /\
            JsMap.get (frame_items f) (snd (Ast.env_pos n)) = None.

Definition symbol_differs (h : Heap) (e : Environment.t)
    (n : Ast.ResolvedName) : Prop :=
  exists b, binding_at h e (Ast.env_pos n) = Some b /\ sym b <> Ast.sym n.

(** What [Frame.lookup] computes from the content of the frame. *)
Definition frame_lookup (f : Frame) (name : Ast.ResolvedName)
  : outcome Ast.AstNode :=
  match JsMap.get (frame_items f) (snd (Ast.env_pos name)) with
  | None => Throw (InternalAssertionError "Variable lookup frame out of range.")
  | Some b =>
      if String.eqb (Ast.sym name) (sym b) then Ok (ast b)
      else Throw (InternalAssertionError "Variable lookup symbol mismatch.")
  end.

(** What [Frame.set_var] makes of the content of the frame. *)
Definition frame_set_var (f : Frame) (name : Ast.ResolvedName)
    (result : Ast.LiteralType) : outcome Frame :=
  match JsMap.get (frame_items f) (snd (Ast.env_pos name)) with
  | None => Throw (InternalAssertionError "Variable setting frame out of range.")
  | Some b =>
      if String.eqb (sym b) (Ast.sym name) then
        Ok {| frame_items :=
                JsMap.set (frame_items f) (snd (Ast.env_pos name))
                  {| sym := Ast.sym name; ast := Ast.Literal result |} |}
      else Throw (InternalAssertionError "Variable setting symbol mismatch.")
  end.

(** What [Frame.add_var] makes of the content of the frame. *)
Definition frame_add_var (f : Frame) (name : Ast.ResolvedName)
    (expr : Ast.Expression) : outcome Frame :=
  if JsMap.has (frame_items f) (snd (Ast.env_pos name)) then
    Throw (InternalAssertionError "Attempted to add variable that exists.")
  else
    Ok {| frame_items :=
            JsMap.set (frame_items f) (snd (Ast.env_pos name))
              {| sym := Ast.sym name; ast := expr |} |}.

(** The environment-producing operations. *)
Inductive operation : Type :=
| Copy
| SetVar (name : Ast.ResolvedName) (result : Ast.LiteralType)
| AddVar (name : Ast.ResolvedName) (expr : Ast.Expression)
| AddFrame
| RemoveFrame.

Definition run (op : operation) (e : Environment.t) : JS Environment.t :=
  match op with
  | Copy => copy e
  | SetVar name result => set_var e name result
  | AddVar name expr => add_var e name expr
  | AddFrame => add_frame e
  | RemoveFrame => remove_frame e
  end.

(** The operations the spec calls mutating. *)
Definition mutating (op : operation) : bool :=
  match op with Copy => false | _ => true end.

(** The address an operation writes to, when it is in the global frame. *)
Definition global_write (op : operation) : option (Ast.Scope * Z) :=
  match op with
  | SetVar name _ | AddVar name _ =>
      match fst (Ast.env_pos name) with
      | Ast.global => Some (Ast.env_pos name)
      | Ast.idx _ => None
      end
  | _ => None
  end.

(** The search of [lookup_name], in the spec's words: "linear search from
    the innermost frame outward, then the global frame". *)
Definition search_order (e : Environment.t) : list (Ast.Scope * loc) :=
  rev (imap (fun i l => (Ast.idx (Z.of_nat i), l)) (frames e))
  ++ [(Ast.global, global_frame e)].

(** The first slot of a frame, in insertion order, that holds the symbol. *)
Definition first_slot (f : Frame) (s : string) : option Z :=
  match List.find (fun kv => String.eqb (sym (snd kv)) s)
                  (JsMap.entries (frame_items f)) with
  | Some kv => Some (fst kv)
  | None => None
  end.

Fixpoint search (h : Heap) (s : string) (order : list (Ast.Scope * loc))
  : option (Ast.Scope * Z) :=
  match order with
  | [] => None
  | (scope, l) :: rest =>
      match h !! l with
      | Some f =>
          match first_slot f s with
          | Some slot => Some (scope, slot)
          | None => search h s rest
          end
      | None => search h s rest
      end
  end.

Definition lookup_name_spec (h : Heap) (e : Environment.t) (name : Ast.Name)
  : option (Ast.Scope * Z) :=
  search h (Ast.name_sym name) (search_order e).

End Spec.
Import Spec.

(** ** A small session, used to exercise the statements

    The global frame binds [x] at slot 0; one local frame binds [y] at
    slot 0 and a second [x] at slot 1. *)

Module Example.

Definition x_global : Ast.ResolvedName :=
  {| Ast.sym := "x"; Ast.env_pos := (Ast.global, 0) |}.
Definition y_local : Ast.ResolvedName :=
  {| Ast.sym := "y"; Ast.env_pos := (Ast.idx 0, 0) |}.
Definition x_local : Ast.ResolvedName :=
  {| Ast.sym := "x"; Ast.env_pos := (Ast.idx 0, 1) |}.
Definition z_unbound : Ast.Name := {| Ast.name_sym := "z" |}.

Definition one : Ast.AstNode := Ast.Literal (Ast.Number 1).
Definition two : Ast.AstNode := Ast.Literal (Ast.Number 2).

Definition heap : Heap :=
  [ {| frame_items := [(0, {| sym := "x"; ast := one |})] |};
    {| frame_items := [(0, {| sym := "y"; ast := Ast.Literal (Ast.Boolean true) |});
                       (1, {| sym := "x"; ast := two |})] |} ].

Definition env : Environment.t :=
  {| Environment.global_frame := 0%nat; Environment.frames := [1%nat] |}.

(** A session with nothing bound. *)
Definition heap0 : Heap := [ {| frame_items := JsMap.empty |} ].
Definition env0 : Environment.t :=
  {| Environment.global_frame := 0%nat; Environment.frames := [] |}.

End Example.

(** ** Further notions: separation, unique keys, the frame at an index *)

Module Shape.
Import Environment.

(** The global frame and the frames of the stack are pairwise different
    objects. *)
Definition env_separate (e : Environment.t) : Prop :=
  NoDup (global_frame e :: frames e).

(** The keys of the map of a frame are pairwise different, as the keys of
    a [Map] are. *)
Definition frame_ok (f : Frame) : Prop := NoDup (frame_items f).*1.

Definition store_ok (h : list Frame) : Prop := Forall frame_ok h.

(** The slot [Frame.lookup_name] finds for symbol [s] in the frame at index
    [j] of the stack, if there is such a frame and it holds the symbol. *)
Definition stack_slot (h : list Frame) (e : Environment.t) (j : nat)
    (s : string) : option Z :=
  match frames e !! j with
  | Some l =>
      match h !! l with
      | Some f => first_slot f s
      | None => None
      end
  | None => None
  end.

(** Likewise for the global frame. *)
Definition global_slot (h : list Frame) (e : Environment.t) (s : string)
  : option Z :=
  match h !! global_frame e with
  | Some f => first_slot f s
  | None => None
  end.

End Shape.
Import Shape.

(** ** Printing the expressions of the L5 syntax tree

    [toString] and [debug] of the classes that make up [Expression].  The
    conversion of a number to a string by a template literal is the
    runtime's, and is a parameter here. *)

Module L5Print.
Import L5.
Section Printing.
Variable number_toString : Z -> string.

(** The template literal of a [LiteralType] value.  A [UnitLiteral] has no
    [toString] of its own, so it prints as any plain object does. *)
Definition value_toString (v : LiteralType) : string :=
  match v with
  | LNumber n => number_toString n
  | LBoolean true => "true"
  | LBoolean false => "false"
  | UnitLiteral _ _ => "[object Object]"
  end.

Definition LogicalCompositionType_string (op : LogicalCompositionType)
  : string :=
  match op with AND => "AND" | OR => "OR" end.

Definition BinaryOpType_string (op : BinaryOpType) : string :=
  match op with
  | Add => "+" | Sub => "-" | Mul => "*" | Mod => "%" | Div => "/"
  | Gt => ">" | Ge => ">=" | Lt => "<" | Le => "<=" | Eq => "==" | Ne => "!="
  end.

Definition UnaryOpType_string (op : UnaryOpType) : string :=
  match op with Neg => "-" | Not => "!" end.

Fixpoint toString (e : Expression) (i : Z) : string :=
  match e with
  | Literal value _ => value_toString value
  | EIdentifier id => identifier id
  | ERelationalIdentifier _ => EmptyString
  | ConditionalExpr pred cons_ alt _ =>
      ("(" ++ toString pred i ++ ") ? (" ++ toString cons_ i ++ ") : ("
      ++ toString alt i ++ ")")%string
  | LogicalComposition op first second _ =>
      ("(" ++ toString first i ++ " " ++ LogicalCompositionType_string op
      ++ " " ++ toString second i ++ ")")%string
  | BinaryOp op first second _ =>
      ("(" ++ toString first i ++ " " ++ BinaryOpType_string op ++ " "
      ++ toString second i ++ ")")%string
  | UnaryOp op first _ =>
      ("(" ++ UnaryOpType_string op ++ toString first i ++ ")")%string
  end.

Fixpoint debug (e : Expression) (i : Z) : string :=
  match e with
  | Literal value _ => value_toString value
  | EIdentifier id => identifier id
  | ERelationalIdentifier _ => EmptyString
  | ConditionalExpr pred cons_ alt _ =>
      ("(" ++ debug pred i ++ ") ? (" ++ debug cons_ i ++ ") : ("
      ++ debug alt i ++ ")")%string
  | LogicalComposition op first second _ =>
      ("(" ++ debug first i ++ " " ++ LogicalCompositionType_string op
      ++ " " ++ debug second i ++ ")")%string
  | BinaryOp op first second _ =>
      ("(" ++ debug first i ++ " " ++ BinaryOpType_string op ++ " "
      ++ debug second i ++ ")")%string
  | UnaryOp op first _ =>
      ("(" ++ UnaryOpType_string op ++ debug first i ++ ")")%string
  end.

End Printing.
End L5Print.

(** * Properties *)

(** ** [Map]: reading after writing *)

Section JsMapFacts.
Context {V : Type}.
Implicit Types (m : JsMap.t V) (k : Z) (v : V).

Lemma JsMap_get_set_eq m k v : JsMap.get (JsMap.set m k v) k = Some v.
Proof.
  induction m as [|[k' v'] m IH]; simpl.
  - by rewrite Z.eqb_refl.
  - destruct (Z.eqb k' k) eqn:E; simpl; rewrite E; [done | exact IH].
Qed.

Lemma JsMap_get_set_ne m k k' v :
  k <> k' -> JsMap.get (JsMap.set m k v) k' = JsMap.get m k'.
Proof.
  intros Hne. induction m as [|[k0 v0] m IH]; simpl.
  - destruct (Z.eqb_spec k k'); [contradiction | done].
  - destruct (Z.eqb_spec k0 k) as [->|Hk]; simpl.
    + destruct (Z.eqb_spec k k'); [contradiction | done].
    + destruct (Z.eqb k0 k'); [done | exact IH].
Qed.

(** [set] keeps the keys distinct, as a [Map] does. *)
Lemma JsMap_set_keys m k v :
  JsMap.get m k = None -> (JsMap.set m k v).*1 = m.*1 ++ [k].
Proof.
  induction m as [|[k0 v0] m IH]; cbn [JsMap.get JsMap.set]; [done|].
  destruct (Z.eqb k0 k); [done|]. intros H.
  rewrite !fmap_cons, IH by done. done.
Qed.

Lemma JsMap_set_keys_present m k v :
  JsMap.get m k <> None -> (JsMap.set m k v).*1 = m.*1.
Proof.
  induction m as [|[k0 v0] m IH]; cbn [JsMap.get JsMap.set]; [done|].
  destruct (Z.eqb k0 k); [done|]. intros H.
  rewrite !fmap_cons, IH by done. done.
Qed.

Lemma JsMap_get_None_keys m k : JsMap.get m k = None -> k ∉ m.*1.
Proof.
  induction m as [|[k0 v0] m IH]; cbn [JsMap.get].
  - intros _. apply not_elem_of_nil.
  - destruct (Z.eqb_spec k0 k) as [->|Hk]; [done|].
    intros H. rewrite fmap_cons. apply not_elem_of_cons.
    split; [simpl; congruence | auto].
Qed.

Lemma JsMap_set_NoDup m k v : NoDup m.*1 -> NoDup (JsMap.set m k v).*1.
Proof.
  intros Hnd. destruct (JsMap.get m k) eqn:E.
  - rewrite JsMap_set_keys_present; [done | congruence].
  - rewrite JsMap_set_keys by done.
    apply NoDup_app. split_and!; [done | | apply NoDup_singleton].
    intros x Hx ->%list_elem_of_singleton.
    by apply (JsMap_get_None_keys m k).
Qed.

End JsMapFacts.

(** ** The checked constructors of the syntax tree *)

(** C7.  [new TemporalConstraint(is_relative, timestamp, _)] fails when
    [is_relative] is true and the timestamp is an [AbsoluteTime], fails when
    [is_relative] is false and the timestamp is a [RelativeTime], and
    succeeds (building the node from its arguments) in the two cases where
    the flag agrees with the variant of the timestamp. *)
Theorem TemporalConstraint_checked (r : L5.RelativeTime)
    (a : L5.AbsoluteTime) (tokens : list Token.Token) :
  failed_assertion (L5.new_TemporalConstraint true (L5.TAbsolute a) tokens)
    = true
  /\ failed_assertion (L5.new_TemporalConstraint false (L5.TRelative r) tokens)
    = true
  /\ L5.new_TemporalConstraint true (L5.TRelative r) tokens
     = Ok {| L5.is_relative := true; L5.timestamp := L5.TRelative r;
             L5.tc_tokens := tokens |}
  /\ L5.new_TemporalConstraint false (L5.TAbsolute a) tokens
     = Ok {| L5.is_relative := false; L5.timestamp := L5.TAbsolute a;
             L5.tc_tokens := tokens |}.
Proof. repeat split. Qed.

(** C6.  [new RegulativeRuleConclusion(fulfilled, performed, ...)] fails
    exactly when neither [fulfilled] nor [performed] is [true] (each being
    [false] or absent), and succeeds, building the node from its arguments,
    exactly when at least one of them is [true]. *)
Theorem RegulativeRuleConclusion_checked (fulfilled performed : Maybe bool)
    (mutations : list L5.Mutation) (conclusions : list L5.Conclusion)
    (tokens : list Token.Token) :
  let built :=
    L5.new_RegulativeRuleConclusion fulfilled performed mutations
      conclusions tokens in
  (failed_assertion built = true
     <-> fulfilled <> Some true /\ performed <> Some true)
  /\ (built = Ok {| L5.fulfilled := fulfilled; L5.performed := performed;
                    L5.mutations := mutations;
                    L5.conclusions := conclusions;
                    L5.rrc_tokens := tokens |}
     <-> fulfilled = Some true \/ performed = Some true)
  /\ (failed built = failed_assertion built).
Proof.
  unfold L5.new_RegulativeRuleConclusion.
  destruct fulfilled as [[]|], performed as [[]|]; simpl;
    intuition congruence.
Qed.

(** ** Running the methods of [Frame] *)

Section FrameRuns.
Implicit Types (h : Heap) (l : loc) (f : Frame).

Lemma deref_run h l f : h !! l = Some f -> deref l h = (Ok f, h).
Proof. intros H. unfold deref. by rewrite H. Qed.

Lemma Frame_lookup_run h l f name :
  h !! l = Some f -> Frame.lookup l name h = (frame_lookup f name, h).
Proof.
  intros H. unfold Frame.lookup, bind. rewrite (deref_run _ _ _ H).
  unfold frame_lookup, internal_assertion.
  destruct (JsMap.get _ _) as [b|]; simpl; [|done].
  by destruct (String.eqb _ _).
Qed.

Lemma Frame_lookup_dangling h l name :
  h !! l = None -> Frame.lookup l name h = (Throw DanglingReference, h).
Proof. intros H. unfold Frame.lookup, bind, deref. by rewrite H. Qed.

Lemma Frame_lookup_name_run h l f name :
  h !! l = Some f ->
  Frame.lookup_name l name h = (Ok (first_slot f (Ast.name_sym name)), h).
Proof.
  intros H. unfold Frame.lookup_name, bind. rewrite (deref_run _ _ _ H).
  unfold ret, first_slot, JsMap.entries. do 2 f_equal.
  induction (frame_items f) as [|[p2 s] m IH]; simpl; [done|].
  by destruct (String.eqb _ _).
Qed.

Lemma Frame_copy_run h l f :
  h !! l = Some f -> Frame.copy l h = (Ok (length h), h ++ [f]).
Proof.
  intros H. unfold Frame.copy, bind. rewrite (deref_run _ _ _ H).
  unfold Frame.new, alloc, JsMap.copy. by destruct f.
Qed.

Lemma Frame_set_var_run h l f name result :
  h !! l = Some f ->
  Frame.set_var l name result h =
    match frame_set_var f name result with
    | Ok f' => (Ok tt, <[l := f']> h)
    | Throw e => (Throw e, h)
    end.
Proof.
  intros H. unfold Frame.set_var, bind. rewrite (deref_run _ _ _ H).
  unfold frame_set_var, internal_assertion, store.
  destruct (JsMap.get _ _) as [b|]; simpl; [|done].
  destruct (String.eqb _ _); simpl; [|done]. by rewrite H.
Qed.

Lemma Frame_add_var_run h l f name expr :
  h !! l = Some f ->
  Frame.add_var l name expr h =
    match frame_add_var f name expr with
    | Ok f' => (Ok tt, <[l := f']> h)
    | Throw e => (Throw e, h)
    end.
Proof.
  intros H. unfold Frame.add_var, bind. rewrite (deref_run _ _ _ H).
  unfold frame_add_var, internal_assertion, store.
  destruct (JsMap.has _ _); simpl; [done|]. by rewrite H.
Qed.

End FrameRuns.

(** ** Reading after the content of a frame changed *)

Section FrameContent.
Implicit Types (f : Frame) (n m : Ast.ResolvedName).

Lemma frame_set_var_of_lookup f n a v :
  frame_lookup f n = Ok a ->
  exists f', frame_set_var f n v = Ok f'.
Proof.
  unfold frame_lookup, frame_set_var.
  destruct (JsMap.get _ _) as [b|]; [|done].
  rewrite (String.eqb_sym (sym b)).
  destruct (String.eqb _ _); [eauto | done].
Qed.

Lemma frame_lookup_set_var f f' n v :
  frame_set_var f n v = Ok f' -> frame_lookup f' n = Ok (Ast.Literal v).
Proof.
  unfold frame_set_var, frame_lookup.
  destruct (JsMap.get _ _) as [b|]; [|done].
  destruct (String.eqb _ _); [|done]. intros [= <-]. simpl.
  by rewrite JsMap_get_set_eq, String.eqb_refl.
Qed.

Lemma frame_get_set_var_other f f' n v k :
  frame_set_var f n v = Ok f' -> snd (Ast.env_pos n) <> k ->
  JsMap.get (frame_items f') k = JsMap.get (frame_items f) k.
Proof.
  unfold frame_set_var.
  destruct (JsMap.get _ _) as [b|]; [|done].
  destruct (String.eqb _ _); [|done]. intros [= <-] Hk. simpl.
  by apply JsMap_get_set_ne.
Qed.

Lemma frame_get_add_var_other f f' n x k :
  frame_add_var f n x = Ok f' -> snd (Ast.env_pos n) <> k ->
  JsMap.get (frame_items f') k = JsMap.get (frame_items f) k.
Proof.
  unfold frame_add_var. destruct (JsMap.has _ _); [done|].
  intros [= <-] Hk. simpl. by apply JsMap_get_set_ne.
Qed.

Lemma frame_lookup_add_var f f' n x :
  frame_add_var f n x = Ok f' -> frame_lookup f' n = Ok x.
Proof.
  unfold frame_add_var, frame_lookup. destruct (JsMap.has _ _); [done|].
  intros [= <-]. simpl. by rewrite JsMap_get_set_eq, String.eqb_refl.
Qed.

(** [frame_lookup] only reads the addressed slot. *)
Lemma frame_lookup_ext f f' m :
  JsMap.get (frame_items f') (snd (Ast.env_pos m))
    = JsMap.get (frame_items f) (snd (Ast.env_pos m)) ->
  frame_lookup f' m = frame_lookup f m.
Proof. unfold frame_lookup. by intros ->. Qed.

End FrameContent.

(** ** The store under [copy] *)

Section Copying.
Implicit Types (h : Heap) (e : Environment.t) (ls : list loc)
  (fs : list Frame).

Lemma wf_holds h e :
  env_wf h e ->
  exists g fs, h !! Environment.global_frame e = Some g
               /\ holds h (Environment.frames e) fs.
Proof.
  intros [Hg Hfs].
  destruct (lookup_lt_is_Some_2 h _ Hg) as [g Hg'].
  exists g. cut (exists fs, holds h (Environment.frames e) fs).
  { intros [fs ?]. eauto. }
  induction Hfs as [|l ls Hl _ [fs IH]].
  - exists []. constructor.
  - destruct (lookup_lt_is_Some_2 h _ Hl) as [f Hf].
    exists (f :: fs). by constructor.
Qed.

Lemma holds_length h ls fs : holds h ls fs -> length ls = length fs.
Proof. apply Forall2_length. Qed.

Lemma holds_lookup h ls fs i l :
  holds h ls fs -> ls !! i = Some l -> h !! l = fs !! i /\ is_Some (fs !! i).
Proof.
  intros H Hl.
  destruct (Forall2_lookup_l _ _ _ _ _ H Hl) as (f & Hf & Hlf).
  rewrite Hf. eauto.
Qed.

(** Copying frames one after the other appends their contents to the
    store and yields the new locations in order. *)
Lemma array_map_copy_run h acc ls fs :
  holds h ls fs ->
  array_map Frame.copy ls (h ++ acc)
    = (Ok (seq (length h + length acc) (length ls)), h ++ acc ++ fs).
Proof.
  intros H. revert acc.
  induction H as [|l f ls fs Hl _ IH]; intros acc; simpl.
  - unfold ret. by rewrite app_nil_r.
  - unfold bind.
    rewrite (Frame_copy_run _ _ f) by (by apply lookup_app_l_Some).
    rewrite <- (assoc_L (++)), IH.
    unfold ret. rewrite !length_app. simpl.
    rewrite <- (assoc_L (++) acc). simpl.
    by rewrite Nat.add_1_r, Nat.add_succ_r.
Qed.

Lemma copy_frames_run h ls fs :
  holds h ls fs ->
  array_map Frame.copy ls h = (Ok (seq (length h) (length ls)), h ++ fs).
Proof.
  intros H. pose proof (array_map_copy_run h [] ls fs H) as R.
  by rewrite app_nil_r, Nat.add_0_r in R.
Qed.

Lemma copy_run h e fs :
  holds h (Environment.frames e) fs ->
  Environment.copy e h = (Ok (copied h e), h ++ fs).
Proof.
  intros H. unfold Environment.copy, bind.
  by rewrite (copy_frames_run _ _ _ H).
Qed.

End Copying.

(** ** Running [lookup] *)

Section Lookup.
Implicit Types (h : Heap) (e : Environment.t) (n : Ast.ResolvedName).

(** [lookup] in terms of the content of the store: it reads one frame and
    leaves the store as it is. *)
Lemma lookup_run h e n :
  Environment.lookup e n h =
    (match addressed_loc e (fst (Ast.env_pos n)) with
     | None =>
         Throw (InternalAssertionError "Variable lookup env out of range.")
     | Some l =>
         match h !! l with
         | Some f => frame_lookup f n
         | None => Throw DanglingReference
         end
     end, h).
Proof.
  unfold Environment.lookup, addressed_loc, bind.
  destruct (fst (Ast.env_pos n)) as [|i]; simpl.
  - destruct (h !! Environment.global_frame e) as [f|] eqn:E.
    + by apply Frame_lookup_run.
    + by apply Frame_lookup_dangling.
  - unfold internal_assertion.
    destruct (array_get _ i) as [l|]; simpl; [|done].
    destruct (h !! l) as [f|] eqn:E.
    + by apply Frame_lookup_run.
    + by apply Frame_lookup_dangling.
Qed.

Lemma lookup_keeps_store h e n : snd (Environment.lookup e n h) = h.
Proof. by rewrite lookup_run. Qed.

End Lookup.

(** ** [lookup]: when it fails and what it returns *)

Section LookupContract.
Implicit Types (h : Heap) (e : Environment.t) (n : Ast.ResolvedName).

Lemma array_get_Some {A} (xs : list A) (i : Z) (x : A) :
  array_get xs i = Some x <-> 0 <= i /\ xs !! Z.to_nat i = Some x.
Proof.
  unfold array_get. destruct (Z.ltb_spec i 0); split.
  - done.
  - intros [? _]. lia.
  - done.
  - by intros [_ ?].
Qed.

Lemma array_get_None {A} (xs : list A) (i : Z) :
  array_get xs i = None <-> i < 0 \/ Z.of_nat (length xs) <= i.
Proof.
  unfold array_get. destruct (Z.ltb_spec i 0).
  - split; [auto | done].
  - rewrite lookup_ge_None. lia.
Qed.

Lemma scope_out_of_range_None e n :
  scope_out_of_range e n <-> addressed_loc e (fst (Ast.env_pos n)) = None.
Proof.
  unfold scope_out_of_range, addressed_loc.
  destruct (fst (Ast.env_pos n)) as [|i]; [done|].
  by rewrite array_get_None.
Qed.

Lemma addressed_loc_wf h e s l :
  env_wf h e -> addressed_loc e s = Some l -> is_Some (h !! l).
Proof.
  intros [Hg Hfs] Hl. apply lookup_lt_is_Some_2.
  destruct s as [|i]; simpl in Hl.
  - by injection Hl as <-.
  - apply array_get_Some in Hl as [_ Hl].
    by eapply (Forall_lookup_1 _ _ _ _ Hfs).
Qed.

(** C3.  In a well-formed store, [lookup(name)] reads the global frame or
    [frames[idx]] as the address says, and it fails exactly when the scope
    index is out of range of the frame stack, or the addressed slot is
    unoccupied, or the symbol stored there differs from the queried one;
    every such failure is a failed internal assertion (the spec's
    [ScopeError]); and it returns a node [a] exactly when the addressed
    slot holds the queried symbol bound to [a]. *)
Theorem lookup_contract h e n :
  env_wf h e ->
  (failed (fst (Environment.lookup e n h)) = true
     <-> scope_out_of_range e n \/ slot_unoccupied h e n
         \/ symbol_differs h e n)
  /\ failed (fst (Environment.lookup e n h))
     = failed_assertion (fst (Environment.lookup e n h))
  /\ (forall a,
        fst (Environment.lookup e n h) = Ok a
        <-> exists b, binding_at h e (Ast.env_pos n) = Some b
                      /\ sym b = Ast.sym n /\ ast b = a).
Proof.
  intros Hwf. rewrite lookup_run, scope_out_of_range_None. simpl.
  unfold slot_unoccupied, symbol_differs, binding_at, addressed_frame.
  destruct (addressed_loc e _) as [l|] eqn:El; simpl.
  - destruct (addressed_loc_wf _ _ _ _ Hwf El) as [f Hf]. rewrite Hf.
    unfold frame_lookup.
    destruct (JsMap.get _ _) as [b|] eqn:Eb; simpl.
    + destruct (String.eqb_spec (Ast.sym n) (sym b)) as [Es|Es]; simpl.
      * split_and!; [split | done | split].
        -- done.
        -- intros [?|[(f' & [= <-] & ?)|(b' & [= <-] & ?)]]; congruence.
        -- intros [= <-]. eauto.
        -- intros (b' & [= <-] & _ & <-). done.
      * split_and!; [split | done | split].
        -- intros _. right. right. exists b. split; congruence.
        -- done.
        -- done.
        -- intros (b' & [= <-] & ? & _). congruence.
    + split_and!; [split | done | split].
      * intros _. right. left. eauto.
      * done.
      * done.
      * intros (b' & ? & _). done.
  - split_and!; [split | done | split].
    + auto.
    + done.
    + done.
    + intros (b' & ? & _). done.
Qed.

End LookupContract.

(** ** Running the operations that write *)

Section Writes.
Implicit Types (h : Heap) (e : Environment.t) (n : Ast.ResolvedName)
  (g f : Frame) (fs : list Frame).

Lemma array_get_seq (a len : nat) (i : Z) :
  array_get (seq a len) i =
    if Z.leb 0 i && Z.ltb i (Z.of_nat len) then Some (a + Z.to_nat i)%nat
    else None.
Proof.
  unfold array_get. destruct (Z.ltb_spec i 0), (Z.leb_spec 0 i); try lia.
  - done.
  - simpl. destruct (Z.ltb_spec i (Z.of_nat len)).
    + apply lookup_seq. lia.
    + apply lookup_ge_None. rewrite length_seq. lia.
Qed.

(** The frame at index [i] of a copied stack is the new object holding the
    content of the frame at index [i]. *)
Lemma array_get_copied (a : nat) {A} (xs : list A) (i : Z) :
  array_get (seq a (length xs)) i
    = (fun _ => (a + Z.to_nat i)%nat) <$> array_get xs i.
Proof.
  rewrite array_get_seq. unfold array_get.
  destruct (Z.ltb_spec i 0), (Z.leb_spec 0 i); try lia; simpl; [done|].
  destruct (Z.ltb_spec i (Z.of_nat (length xs))).
  - destruct (lookup_lt_is_Some_2 xs (Z.to_nat i)) as [x ->]; [lia | done].
  - rewrite (proj2 (lookup_ge_None xs (Z.to_nat i))); [done | lia].
Qed.

Lemma lookup_copied h fs (i : Z) f :
  array_get fs i = Some f -> (h ++ fs) !! (length h + Z.to_nat i)%nat = Some f.
Proof.
  intros [_ H]%array_get_Some.
  by rewrite lookup_app_r, Nat.add_comm, Nat.add_sub by lia.
Qed.

Lemma insert_copied h fs (i : Z) f :
  <[(length h + Z.to_nat i)%nat := f]> (h ++ fs) = h ++ <[Z.to_nat i := f]> fs.
Proof. apply insert_app_r. Qed.

Lemma insert_global h fs (l : nat) g g' :
  h !! l = Some g -> <[l := g']> (h ++ fs) = <[l := g']> h ++ fs.
Proof. intros H. apply insert_app_l. by eapply lookup_lt_Some. Qed.

Lemma set_var_run h e n v g fs :
  h !! Environment.global_frame e = Some g ->
  holds h (Environment.frames e) fs ->
  Environment.set_var e n v h =
    match fst (Ast.env_pos n) with
    | Ast.global =>
        match frame_set_var g n v with
        | Ok g' =>
            (Ok (copied h e), <[Environment.global_frame e := g']> h ++ fs)
        | Throw x => (Throw x, h ++ fs)
        end
    | Ast.idx i =>
        match array_get fs i with
        | None =>
            (Throw (InternalAssertionError
                      "Variable setting env out of range."), h ++ fs)
        | Some f =>
            match frame_set_var f n v with
            | Ok f' => (Ok (copied h e), h ++ <[Z.to_nat i := f']> fs)
            | Throw x => (Throw x, h ++ fs)
            end
        end
    end.
Proof.
  intros Hg Hfs. unfold Environment.set_var, bind.
  rewrite (copy_run _ _ _ Hfs).
  destruct (fst (Ast.env_pos n)) as [|i]; simpl.
  - rewrite (Frame_set_var_run _ _ g) by (by apply lookup_app_l_Some).
    destruct (frame_set_var g n v); [|done].
    by rewrite (insert_global _ _ _ g).
  - rewrite (holds_length _ _ _ Hfs), array_get_copied.
    unfold internal_assertion.
    destruct (array_get fs i) as [f|] eqn:Ef; simpl; [|done].
    rewrite (Frame_set_var_run _ _ f) by (by apply lookup_copied).
    destruct (frame_set_var f n v); [|done].
    by rewrite insert_copied.
Qed.

Lemma add_var_mut_run h e n x :
  Environment.add_var_mut e n x h =
    match fst (Ast.env_pos n) with
    | Ast.global =>
        match Frame.add_var (Environment.global_frame e) n x h with
        | (Ok _, h') => (Ok e, h')
        | (Throw y, h') => (Throw y, h')
        end
    | Ast.idx i =>
        if Z.eqb i (Z.of_nat (length (Environment.frames e)) - 1) then
          match array_get (Environment.frames e) i with
          | None => (Throw TypeError, h)
          | Some l =>
              match Frame.add_var l n x h with
              | (Ok _, h') => (Ok e, h')
              | (Throw y, h') => (Throw y, h')
              end
          end
        else
          (Throw (InternalAssertionError
                    "Adding variable outside of current scope."), h)
    end.
Proof.
  unfold Environment.add_var_mut, bind.
  destruct (fst (Ast.env_pos n)) as [|i]; simpl; [done|].
  unfold internal_assertion.
  destruct (Z.eqb_spec i (Z.of_nat (length (Environment.frames e)) - 1))
    as [->|Hi]; simpl; [|done].
  by destruct (array_get _ _).
Qed.

Lemma add_var_run h e n x g fs :
  h !! Environment.global_frame e = Some g ->
  holds h (Environment.frames e) fs ->
  Environment.add_var e n x h =
    match fst (Ast.env_pos n) with
    | Ast.global =>
        match frame_add_var g n x with
        | Ok g' =>
            (Ok (copied h e), <[Environment.global_frame e := g']> h ++ fs)
        | Throw y => (Throw y, h ++ fs)
        end
    | Ast.idx i =>
        if Z.eqb i (Z.of_nat (length (Environment.frames e)) - 1) then
          match array_get fs i with
          | None => (Throw TypeError, h ++ fs)
          | Some f =>
              match frame_add_var f n x with
              | Ok f' => (Ok (copied h e), h ++ <[Z.to_nat i := f']> fs)
              | Throw y => (Throw y, h ++ fs)
              end
          end
        else
          (Throw (InternalAssertionError
                    "Adding variable outside of current scope."), h ++ fs)
    end.
Proof.
  intros Hg Hfs. unfold Environment.add_var, bind.
  rewrite (copy_run _ _ _ Hfs), add_var_mut_run.
  destruct (fst (Ast.env_pos n)) as [|i]; simpl.
  - rewrite (Frame_add_var_run _ _ g) by (by apply lookup_app_l_Some).
    destruct (frame_add_var g n x); [|done].
    by rewrite (insert_global _ _ _ g).
  - rewrite length_seq.
    destruct (Z.eqb i _); [|done].
    rewrite (holds_length _ _ _ Hfs), array_get_copied.
    destruct (array_get fs i) as [f|] eqn:Ef; simpl; [|done].
    rewrite (Frame_add_var_run _ _ f) by (by apply lookup_copied).
    destruct (frame_add_var f n x); [|done].
    by rewrite insert_copied.
Qed.

Lemma add_frame_run h e fs :
  holds h (Environment.frames e) fs ->
  Environment.add_frame e h =
    (Ok {| Environment.global_frame := Environment.global_frame e;
           Environment.frames :=
             seq (length h) (length (Environment.frames e) + 1) |},
     h ++ fs ++ [ {| frame_items := JsMap.empty |} ]).
Proof.
  intros Hfs. unfold Environment.add_frame, bind.
  rewrite (copy_frames_run _ _ _ Hfs).
  unfold Frame.new, alloc, ret, Environment.new.
  rewrite length_app, <- (holds_length _ _ _ Hfs), seq_app.
  by rewrite <- (assoc_L (++)).
Qed.

Lemma remove_frame_run h e fs :
  holds h (Environment.frames e) fs ->
  Environment.remove_frame e h =
    match Environment.frames e with
    | [] =>
        (Throw (InternalAssertionError
                  "Removing frame from an empty environment."), h)
    | _ :: _ =>
        (Ok {| Environment.global_frame := Environment.global_frame e;
               Environment.frames :=
                 seq (length h) (length (Environment.frames e) - 1) |},
         h ++ take (length fs - 1) fs)
    end.
Proof.
  intros Hfs. unfold Environment.remove_frame, bind, internal_assertion.
  destruct (Environment.frames e) as [|l ls] eqn:E; [done|].
  change (Nat.ltb 0 (length (l :: ls))) with true. simpl internal_assertion_pure.
  cbv iota.
  rewrite (copy_frames_run _ _ (take (length fs - 1) fs)).
  - unfold ret, Environment.new. rewrite length_take.
    by rewrite Nat.min_l by lia.
  - rewrite <- (holds_length _ _ _ Hfs). by apply Forall2_take.
Qed.

End Writes.

(** ** The frames an environment addresses, before and after *)

Section Addressing.
Implicit Types (h : Heap) (e : Environment.t) (n m : Ast.ResolvedName)
  (g f : Frame) (fs : list Frame).

Lemma addressed_frame_idx h e fs (i : Z) :
  holds h (Environment.frames e) fs ->
  addressed_frame h e (Ast.idx i) = array_get fs i.
Proof.
  intros Hfs. unfold addressed_frame, addressed_loc, array_get.
  destruct (Z.ltb i 0); [done|].
  destruct (Environment.frames e !! Z.to_nat i) as [l|] eqn:El.
  - by destruct (holds_lookup _ _ _ _ _ Hfs El) as [-> _].
  - symmetry. apply lookup_ge_None.
    rewrite <- (holds_length _ _ _ Hfs). by apply lookup_ge_None.
Qed.

Lemma addressed_frame_copied h h0 e fs (i : Z) :
  length fs = length (Environment.frames e) ->
  length h0 = length h ->
  addressed_frame (h0 ++ fs) (copied h e) (Ast.idx i) = array_get fs i.
Proof.
  intros Hlen Hh. unfold addressed_frame, addressed_loc, copied. simpl.
  rewrite <- Hlen, array_get_copied, <- Hh.
  destruct (array_get fs i) as [f|] eqn:Ef; simpl; [|done].
  by apply lookup_copied.
Qed.

Lemma wf_copied h h0 e fs :
  (Environment.global_frame e < length h)%nat ->
  length fs = length (Environment.frames e) ->
  length h0 = length h ->
  env_wf (h0 ++ fs) (copied h e).
Proof.
  intros Hg Hlen Hh. split; simpl.
  - rewrite length_app. lia.
  - apply Forall_seq. intros j Hj. rewrite length_app. lia.
Qed.

(** In a well-formed store [lookup] is [frame_lookup] on the addressed
    frame. *)
Lemma lookup_frame h e n :
  env_wf h e ->
  fst (Environment.lookup e n h) =
    match addressed_frame h e (fst (Ast.env_pos n)) with
    | Some f => frame_lookup f n
    | None =>
        Throw (InternalAssertionError "Variable lookup env out of range.")
    end.
Proof.
  intros Hwf. rewrite lookup_run. simpl. unfold addressed_frame.
  destruct (addressed_loc e _) as [l|] eqn:El; [|done].
  by destruct (addressed_loc_wf _ _ _ _ Hwf El) as [f ->].
Qed.

Lemma array_get_insert_eq {A} (xs : list A) (i : Z) (x y : A) :
  array_get xs i = Some x -> array_get (<[Z.to_nat i := y]> xs) i = Some y.
Proof.
  rewrite !array_get_Some. intros [Hi Hx]. split; [done|].
  apply list_lookup_insert_eq. by eapply lookup_lt_Some.
Qed.

Lemma array_get_insert_ne {A} (xs : list A) (i j : Z) (y : A) :
  0 <= j -> i <> j ->
  array_get (<[Z.to_nat j := y]> xs) i = array_get xs i.
Proof.
  intros Hj Hne. unfold array_get. destruct (Z.ltb_spec i 0); [done|].
  apply list_lookup_insert_ne. lia.
Qed.

(** What a successful [set_var] returns: a well-formed environment with as
    many frames, that addresses the same frame contents as [e] did, except
    in the scope of [n], where the content is the result of
    [frame_set_var]. *)
Lemma set_var_frames h e n v e' h' :
  env_wf h e ->
  Environment.set_var e n v h = (Ok e', h') ->
  env_wf h' e'
  /\ length (Environment.frames e') = length (Environment.frames e)
  /\ (forall s, s <> fst (Ast.env_pos n) ->
        addressed_frame h' e' s = addressed_frame h e s)
  /\ (exists f f',
        addressed_frame h e (fst (Ast.env_pos n)) = Some f
        /\ addressed_frame h' e' (fst (Ast.env_pos n)) = Some f'
        /\ frame_set_var f n v = Ok f').
Proof.
  intros Hwf Hrun. destruct (wf_holds _ _ Hwf) as (g & fs & Hg & Hfs).
  pose proof (holds_length _ _ _ Hfs) as Hlen.
  pose proof (lookup_lt_Some _ _ _ Hg) as Hlt.
  rewrite (set_var_run _ _ _ _ _ _ Hg Hfs) in Hrun.
  destruct (fst (Ast.env_pos n)) as [|j] eqn:En.
  - destruct (frame_set_var g n v) as [g'|] eqn:Eg; [|done].
    injection Hrun as <- <-. split_and!.
    + apply wf_copied; [done | done | apply length_insert].
    + simpl. by rewrite length_seq.
    + intros [|i] Hs; [done|].
      rewrite (addressed_frame_idx _ _ _ _ Hfs).
      apply addressed_frame_copied; [done | apply length_insert].
    + exists g, g'. unfold addressed_frame. simpl. split_and!; [done | | done].
      rewrite lookup_app_l by (by rewrite length_insert).
      by apply list_lookup_insert_eq.
  - destruct (array_get fs j) as [f|] eqn:Ef; [|done].
    destruct (frame_set_var f n v) as [f'|] eqn:Ef'; [|done].
    injection Hrun as <- <-.
    assert (0 <= j) as Hj by (by apply array_get_Some in Ef as [? _]).
    split_and!.
    + apply wf_copied; [done | by rewrite length_insert | done].
    + simpl. by rewrite length_seq.
    + intros [|i] Hs.
      * unfold addressed_frame. simpl. by apply lookup_app_l.
      * rewrite (addressed_frame_idx _ _ _ _ Hfs).
        rewrite addressed_frame_copied by (by rewrite ?length_insert).
        apply array_get_insert_ne; congruence.
    + exists f, f'. split_and!; [| | done].
      * by rewrite (addressed_frame_idx _ _ _ _ Hfs).
      * rewrite addressed_frame_copied by (by rewrite ?length_insert).
        by apply array_get_insert_eq with f.
Qed.

End Addressing.

(** ** [set_var] *)

Section SetVar.
Implicit Types (h : Heap) (e : Environment.t) (n m : Ast.ResolvedName)
  (v : Ast.LiteralType).

Lemma set_var_succeeds h e n v f f' :
  env_wf h e ->
  addressed_frame h e (fst (Ast.env_pos n)) = Some f ->
  frame_set_var f n v = Ok f' ->
  exists e' h', Environment.set_var e n v h = (Ok e', h').
Proof.
  intros Hwf Hf Hset. destruct (wf_holds _ _ Hwf) as (g & fs & Hg & Hfs).
  rewrite (set_var_run _ _ _ _ _ _ Hg Hfs).
  destruct (fst (Ast.env_pos n)) as [|j] eqn:En.
  - unfold addressed_frame in Hf. simpl in Hf.
    rewrite Hg in Hf. injection Hf as ->. rewrite Hset. eauto.
  - rewrite (addressed_frame_idx _ _ _ _ Hfs) in Hf.
    rewrite Hf, Hset. eauto.
Qed.

(** C1.  In a well-formed store, when the resolved name [n] is validly
    bound in [e] (that is, [lookup(e, n)] returns a node), [set_var(e, n,
    v)] returns an environment in which [lookup] of [n] returns the node
    [Literal(v)], wrapping exactly [v]. *)
Theorem lookup_set_var h e n v a :
  env_wf h e ->
  fst (Environment.lookup e n h) = Ok a ->
  exists e' h',
    Environment.set_var e n v h = (Ok e', h')
    /\ Environment.lookup e' n h' = (Ok (Ast.Literal v), h').
Proof.
  intros Hwf Hlook. rewrite lookup_frame in Hlook by done.
  destruct (addressed_frame h e _) as [f|] eqn:Ef; [|done].
  destruct (frame_set_var_of_lookup f n a v Hlook) as [f' Hset].
  destruct (set_var_succeeds _ _ _ _ _ _ Hwf Ef Hset) as (e' & h' & Hrun).
  exists e', h'. split; [done|].
  destruct (set_var_frames _ _ _ _ _ _ Hwf Hrun)
    as (Hwf' & _ & _ & f0 & f1 & Hf0 & Hf1 & Hset').
  rewrite (surjective_pairing (Environment.lookup e' n h')).
  rewrite lookup_keeps_store, lookup_frame, Hf1 by done.
  by rewrite (frame_lookup_set_var _ _ _ _ Hset').
Qed.

(** C9.  In a well-formed store, a successful [set_var(e, n, v)] returns an
    environment with the same number of frames in which every address other
    than that of [n] (another scope index, or another slot index) holds the
    binding it held in [e] (same symbol, same node), so that [lookup] of any
    resolved name at such an address gives the result it gave in [e]. *)
Theorem set_var_only_addressed_slot h e n v e' h' :
  env_wf h e ->
  Environment.set_var e n v h = (Ok e', h') ->
  (forall m, Ast.env_pos m <> Ast.env_pos n ->
     binding_at h' e' (Ast.env_pos m) = binding_at h e (Ast.env_pos m)
     /\ fst (Environment.lookup e' m h') = fst (Environment.lookup e m h))
  /\ length (Environment.frames e') = length (Environment.frames e).
Proof.
  intros Hwf Hrun.
  destruct (set_var_frames _ _ _ _ _ _ Hwf Hrun)
    as (Hwf' & Hlen & Hother & f & f' & Hf & Hf' & Hset).
  split; [|done]. intros m Hm.
  rewrite !lookup_frame by done. unfold binding_at.
  destruct (decide (fst (Ast.env_pos m) = fst (Ast.env_pos n))) as [Es|Es].
  - assert (snd (Ast.env_pos n) <> snd (Ast.env_pos m)) as Hslot.
    { intros Eslot. apply Hm.
      destruct (Ast.env_pos m), (Ast.env_pos n). simpl in *. congruence. }
    rewrite Es, Hf, Hf'.
    pose proof (frame_get_set_var_other _ _ _ _ _ Hset Hslot) as Hget.
    split; [done | by apply frame_lookup_ext].
  - by rewrite (Hother _ Es).
Qed.

End SetVar.

(** ** What an operation does to the store the original lives in *)

Section Persistence.
Implicit Types (h : Heap) (e : Environment.t) (n m : Ast.ResolvedName)
  (op : operation).

Lemma global_write_scope op p : global_write op = Some p -> fst p = Ast.global.
Proof.
  destruct op as [|n v|n x| |]; simpl; try done;
    destruct (fst (Ast.env_pos n)) eqn:E; try done; by intros [= <-].
Qed.

(** The store only grows, and of the objects that existed only the global
    frame can have changed. *)
Lemma store_grows h ext l : (l < length h)%nat -> (h ++ ext) !! l = h !! l.
Proof. intros. by apply lookup_app_l. Qed.

Lemma store_global_written h ext (gl l : nat) g' :
  (l < length h)%nat -> l <> gl -> (<[gl := g']> h ++ ext) !! l = h !! l.
Proof.
  intros Hl Hne. rewrite lookup_app_l by (by rewrite length_insert).
  by apply list_lookup_insert_ne.
Qed.

Lemma store_global_read h ext (gl : nat) g g' :
  h !! gl = Some g -> (<[gl := g']> h ++ ext) !! gl = Some g'.
Proof.
  intros Hg. pose proof (lookup_lt_Some _ _ _ Hg).
  rewrite lookup_app_l by (by rewrite length_insert).
  by apply list_lookup_insert_eq.
Qed.

Lemma run_store h e op r h' :
  env_wf h e ->
  run op e h = (r, h') ->
  (forall l, (l < length h)%nat -> l <> Environment.global_frame e ->
     h' !! l = h !! l)
  /\ exists g g',
       h !! Environment.global_frame e = Some g
       /\ h' !! Environment.global_frame e = Some g'
       /\ match global_write op with
          | None => g' = g
          | Some p =>
              forall k, snd p <> k ->
                JsMap.get (frame_items g') k = JsMap.get (frame_items g) k
          end.
Proof.
  intros Hwf Hrun. destruct (wf_holds _ _ Hwf) as (g & fs & Hg & Hfs).
  assert (forall ext,
    (forall l, (l < length h)%nat -> l <> Environment.global_frame e ->
       (h ++ ext) !! l = h !! l)
    /\ exists g0 g', h !! Environment.global_frame e = Some g0
         /\ (h ++ ext) !! Environment.global_frame e = Some g' /\ g' = g0)
    as Hgrow.
  { intros ext. split; [intros; by apply store_grows|].
    exists g, g. split_and!; [done | by apply lookup_app_l_Some | done]. }
  destruct op as [|n v|n x| |]; simpl in Hrun; unfold global_write.
  - rewrite (copy_run _ _ _ Hfs) in Hrun. injection Hrun as <- <-.
    apply Hgrow.
  - rewrite (set_var_run _ _ _ _ _ _ Hg Hfs) in Hrun.
    destruct (fst (Ast.env_pos n)) as [|j].
    + destruct (frame_set_var g n v) as [g'|] eqn:Eg;
        injection Hrun as <- <-.
      * split; [intros; by apply store_global_written|].
        exists g, g'. split_and!; [done | by eapply store_global_read |].
        intros k Hk. by eapply frame_get_set_var_other.
      * destruct (Hgrow fs) as [? (g0 & g' & ? & ? & ->)].
        split; [done|]. by exists g0, g0.
    + destruct (array_get fs j) as [f|];
        [destruct (frame_set_var f n v)|]; injection Hrun as <- <-;
        apply Hgrow.
  - rewrite (add_var_run _ _ _ _ _ _ Hg Hfs) in Hrun.
    destruct (fst (Ast.env_pos n)) as [|j].
    + destruct (frame_add_var g n x) as [g'|] eqn:Eg;
        injection Hrun as <- <-.
      * split; [intros; by apply store_global_written|].
        exists g, g'. split_and!; [done | by eapply store_global_read |].
        intros k Hk. by eapply frame_get_add_var_other.
      * destruct (Hgrow fs) as [? (g0 & g' & ? & ? & ->)].
        split; [done|]. by exists g0, g0.
    + destruct (Z.eqb j _);
        [destruct (array_get fs j) as [f|];
           [destruct (frame_add_var f n x)|]|];
        injection Hrun as <- <-; apply Hgrow.
  - rewrite (add_frame_run _ _ _ Hfs) in Hrun. injection Hrun as <- <-.
    apply Hgrow.
  - rewrite (remove_frame_run _ _ _ Hfs) in Hrun.
    destruct (Environment.frames e); injection Hrun as <- <-.
    + specialize (Hgrow []). by rewrite app_nil_r in Hgrow.
    + apply Hgrow.
Qed.

(** A write to the global scope is read back through the environment it
    was called on. *)
Lemma set_var_global_read h e n v e' h' :
  env_wf h e ->
  fst (Ast.env_pos n) = Ast.global ->
  Environment.set_var e n v h = (Ok e', h') ->
  fst (Environment.lookup e n h') = Ok (Ast.Literal v).
Proof.
  intros Hwf Hscope Hrun. destruct (wf_holds _ _ Hwf) as (g & fs & Hg & Hfs).
  rewrite (set_var_run _ _ _ _ _ _ Hg Hfs), Hscope in Hrun.
  destruct (frame_set_var g n v) as [g'|] eqn:Eg; [|done].
  injection Hrun as <- <-. rewrite lookup_run, Hscope. simpl.
  rewrite (store_global_read _ _ _ _ _ Hg).
  by eapply frame_lookup_set_var.
Qed.

Lemma add_var_global_read h e n x e' h' :
  env_wf h e ->
  fst (Ast.env_pos n) = Ast.global ->
  Environment.add_var e n x h = (Ok e', h') ->
  fst (Environment.lookup e n h') = Ok x.
Proof.
  intros Hwf Hscope Hrun. destruct (wf_holds _ _ Hwf) as (g & fs & Hg & Hfs).
  rewrite (add_var_run _ _ _ _ _ _ Hg Hfs), Hscope in Hrun.
  destruct (frame_add_var g n x) as [g'|] eqn:Eg; [|done].
  injection Hrun as <- <-. rewrite lookup_run, Hscope. simpl.
  rewrite (store_global_read _ _ _ _ _ Hg).
  by eapply frame_lookup_add_var.
Qed.

(** C2, as the code has it.  In a well-formed store, after any operation
    on [e] (whether it returned an environment or failed):
    - when the operation does not write to the global scope (it is
      [add_frame], [remove_frame] or [copy], or a [set_var] or [add_var]
      of a name whose scope is an index of the frame stack), every
      [lookup] on [e] returns what it returned before;
    - when it is a [set_var] or [add_var] of a name in the global scope
      (and the global frame is not also a frame of the stack), every
      [lookup] on [e] of a name at any other address returns what it
      returned before;
    - and when such a [set_var(e, n, v)] or [add_var(e, n, x)] of a name in
      the global scope returned an environment, [e] itself sees the new
      binding at the written slot: [lookup] of [n] on [e] now returns
      [Literal(v)], respectively [x]. *)
Theorem original_lookup_preserved h e op r h' :
  env_wf h e ->
  run op e h = (r, h') ->
  (global_write op = None ->
     forall m,
       fst (Environment.lookup e m h') = fst (Environment.lookup e m h))
  /\ (Environment.global_frame e ∉ Environment.frames e ->
      forall p m, global_write op = Some p -> Ast.env_pos m <> p ->
        fst (Environment.lookup e m h') = fst (Environment.lookup e m h))
  /\ (forall n v e',
        op = SetVar n v -> fst (Ast.env_pos n) = Ast.global ->
        r = Ok e' ->
        fst (Environment.lookup e n h') = Ok (Ast.Literal v))
  /\ (forall n x e',
        op = AddVar n x -> fst (Ast.env_pos n) = Ast.global ->
        r = Ok e' ->
        fst (Environment.lookup e n h') = Ok x).
Proof.
  intros Hwf Hrun.
  destruct (run_store _ _ _ _ _ Hwf Hrun)
    as (Hold & g & g' & Hg & Hg' & Hglobal).
  assert (forall m l, addressed_loc e (fst (Ast.env_pos m)) = Some l ->
            (l < length h)%nat) as Hlt.
  { intros m l Hl. apply lookup_lt_is_Some. by eapply addressed_loc_wf. }
  split_and!.
  4: { intros n x e' -> Hscope ->. by eapply add_var_global_read. }
  3: { intros n v e' -> Hscope ->. by eapply set_var_global_read. }
  - intros Hnone m. rewrite Hnone in Hglobal. subst g'.
    rewrite !lookup_run. simpl.
    destruct (addressed_loc e _) as [l|] eqn:El; [|done].
    destruct (decide (l = Environment.global_frame e)) as [->|Hne].
    + by rewrite Hg, Hg'.
    + by rewrite (Hold l (Hlt _ _ El) Hne).
  - intros Hsep p m Hp Hm. rewrite Hp in Hglobal.
    pose proof (global_write_scope _ _ Hp) as Hscope.
    rewrite !lookup_run. simpl.
    destruct (addressed_loc e _) as [l|] eqn:El; [|done].
    destruct (decide (l = Environment.global_frame e)) as [->|Hne].
    + rewrite Hg, Hg'. apply frame_lookup_ext, Hglobal.
      destruct (fst (Ast.env_pos m)) as [|i] eqn:Em.
      * intros Eslot. apply Hm.
        destruct (Ast.env_pos m), p. simpl in *. congruence.
      * simpl in El. apply array_get_Some in El as [_ El].
        exfalso. apply Hsep. by eapply list_elem_of_lookup_2.
    + by rewrite (Hold l (Hlt _ _ El) Hne).
Qed.

End Persistence.

(** ** [lookup_name] *)

Section LookupName.
Implicit Types (h : Heap) (e : Environment.t) (name : Ast.Name).

Lemma search_app h s order1 order2 :
  search h s (order1 ++ order2) =
    match search h s order1 with
    | Some a => Some a
    | None => search h s order2
    end.
Proof.
  induction order1 as [|[scope l] order1 IH]; simpl; [done|].
  destruct (h !! l) as [f|]; [|exact IH].
  by destruct (first_slot f s).
Qed.

(** What [search] finds is in the first frame of the order that holds the
    symbol: no frame before it does. *)
Lemma search_first h s order scope slot :
  search h s order = Some (scope, slot) ->
  exists before l f after,
    order = before ++ (scope, l) :: after
    /\ h !! l = Some f
    /\ first_slot f s = Some slot
    /\ Forall (fun sl => forall f', h !! snd sl = Some f' ->
                          first_slot f' s = None) before.
Proof.
  induction order as [|[scope0 l0] order IH]; simpl; [done|].
  destruct (h !! l0) as [f0|] eqn:E0;
    [destruct (first_slot f0 s) as [slot0|] eqn:Es|].
  - intros [= <- <-]. exists [], l0, f0, order. by split_and!.
  - intros (before & l & f & after & -> & Hl & Hf & Hbefore)%IH.
    exists ((scope0, l0) :: before), l, f, after. split_and!; try done.
    constructor; [|done]. simpl. intros f' Hf'. congruence.
  - intros (before & l & f & after & -> & Hl & Hf & Hbefore)%IH.
    exists ((scope0, l0) :: before), l, f, after. split_and!; try done.
    constructor; [|done]. simpl. intros f' Hf'. congruence.
Qed.

(** The frames with index below [p1], innermost first. *)
Lemma search_order_step (ls : list nat) (p1 : nat) (l : nat) :
  ls !! p1 = Some l ->
  rev (imap (fun i l => (Ast.idx (Z.of_nat i), l)) (take (S p1) ls))
  = (Ast.idx (Z.of_nat p1), l)
      :: rev (imap (fun i l => (Ast.idx (Z.of_nat i), l)) (take p1 ls)).
Proof.
  intros Hl. rewrite (take_S_r _ _ _ Hl), imap_app, rev_app_distr. simpl.
  rewrite length_take, Nat.min_l, Nat.add_0_r; [done|].
  apply Nat.lt_le_incl. by eapply lookup_lt_Some.
Qed.

(** The [while] loop, started at [p1], has searched the frames below [p1]
    from the innermost outward. *)
Lemma lookup_name_while_run h e name (p1 : nat) :
  env_wf h e ->
  (p1 <= length (Environment.frames e))%nat ->
  Environment.lookup_name_while e name p1 h =
    (Ok (search h (Ast.name_sym name)
           (rev (imap (fun i l => (Ast.idx (Z.of_nat i), l))
                   (take p1 (Environment.frames e))))), h).
Proof.
  intros Hwf. induction p1 as [|p1 IH]; intros Hp1.
  - by rewrite take_0.
  - simpl Environment.lookup_name_while.
    destruct (lookup_lt_is_Some_2 (Environment.frames e) p1) as [l Hl];
      [lia|].
    rewrite Hl, (search_order_step _ _ _ Hl). simpl search.
    destruct Hwf as [_ Hfs].
    destruct (lookup_lt_is_Some_2 h l) as [f Hf].
    { by eapply (Forall_lookup_1 _ _ _ _ Hfs). }
    unfold bind. rewrite (Frame_lookup_name_run _ _ _ _ Hf), Hf.
    destruct (first_slot f _); [done|].
    apply IH. lia.
Qed.

(** [lookup_name] against the search in the spec's words; the store is
    left as it is. *)
Lemma lookup_name_run h e name :
  env_wf h e ->
  Environment.lookup_name e name h =
    (match lookup_name_spec h e name with
     | Some address => Ok address
     | None => Throw ThrownNull
     end, h).
Proof.
  intros Hwf. unfold Environment.lookup_name, bind.
  rewrite lookup_name_while_run by done.
  unfold lookup_name_spec, search_order.
  rewrite search_app, firstn_all.
  destruct (search h _ (rev _)) as [a|]; [done|]. simpl.
  destruct Hwf as [Hg _].
  destruct (lookup_lt_is_Some_2 h _ Hg) as [g Hg'].
  rewrite (Frame_lookup_name_run _ _ _ _ Hg'), Hg'.
  by destruct (first_slot g _).
Qed.

(** C4, as the code has it.  In a well-formed store, [lookup_name(name)]
    searches the frame stack from the innermost frame outward and then the
    global frame, and returns the address (scope index, slot index) found
    in the first of these frames that holds the symbol, the slot being the
    first one of that frame, in insertion order, with the symbol; when no
    frame holds the symbol, it fails (it throws) instead of returning an
    empty optional.  The store is left as it is. *)
Theorem lookup_name_searches h e name :
  env_wf h e ->
  snd (Environment.lookup_name e name h) = h
  /\ match lookup_name_spec h e name with
     | Some address =>
         fst (Environment.lookup_name e name h) = Ok address
     | None => failed (fst (Environment.lookup_name e name h)) = true
     end.
Proof.
  intros Hwf. rewrite lookup_name_run by done. split; [done|].
  by destruct (lookup_name_spec h e name).
Qed.

End LookupName.

(** ** [add_var] and [remove_frame]: the calls that are refused *)

Section Refusals.
Implicit Types (h : Heap) (e : Environment.t) (n : Ast.ResolvedName)
  (x : Ast.Expression).

Lemma frame_add_var_occupied (f : Frame) n x (b : FrameSymbol) :
  JsMap.get (frame_items f) (snd (Ast.env_pos n)) = Some b ->
  frame_add_var f n x
  = Throw (InternalAssertionError "Attempted to add variable that exists.").
Proof. intros H. unfold frame_add_var, JsMap.has. by rewrite H. Qed.

(** C5.  In a well-formed store, [add_var] with a resolved name whose slot
    is occupied in the frame its scope addresses fails with a failed
    internal assertion (the spec's [ScopeError]), whatever symbol the slot
    holds; and [remove_frame] on an environment whose frame stack is empty
    fails likewise. *)
Theorem add_var_occupied_remove_frame_empty h e :
  env_wf h e ->
  (forall n x b,
     binding_at h e (Ast.env_pos n) = Some b ->
     failed_assertion (fst (Environment.add_var e n x h)) = true)
  /\ (Environment.frames e = [] ->
      failed_assertion (fst (Environment.remove_frame e h)) = true).
Proof.
  intros Hwf. split.
  - intros n x b Hb. destruct (wf_holds _ _ Hwf) as (g & fs & Hg & Hfs).
    rewrite (add_var_run _ _ _ _ _ _ Hg Hfs).
    unfold binding_at in Hb.
    destruct (fst (Ast.env_pos n)) as [|i].
    + unfold addressed_frame in Hb. simpl in Hb. rewrite Hg in Hb.
      by rewrite (frame_add_var_occupied _ _ _ _ Hb).
    + rewrite (addressed_frame_idx _ _ _ _ Hfs) in Hb.
      destruct (Z.eqb i _); [|done].
      destruct (array_get fs i) as [f|]; [|done].
      by rewrite (frame_add_var_occupied _ _ _ _ Hb).
  - intros Hempty.
    unfold Environment.remove_frame, bind, internal_assertion.
    by rewrite Hempty.
Qed.

(** C10.  [add_var] with a resolved name whose scope is an index other
    than that of the innermost frame, [frames.length - 1], fails on the
    assertion of [add_var_mut] ("Adding variable outside of current
    scope."), whether or not a frame has that index and whatever its slots
    hold: [add_var_mut] itself in any store, and [add_var], which copies
    the environment first, in a well-formed store. *)
Theorem add_var_only_innermost h e n x (i : Z) :
  fst (Ast.env_pos n) = Ast.idx i ->
  i <> Z.of_nat (length (Environment.frames e)) - 1 ->
  Environment.add_var_mut e n x h
  = (Throw (InternalAssertionError
              "Adding variable outside of current scope."), h)
  /\ (env_wf h e ->
      fst (Environment.add_var e n x h)
      = Throw (InternalAssertionError
                 "Adding variable outside of current scope.")).
Proof.
  intros Hscope Hi. split.
  - rewrite add_var_mut_run, Hscope.
    by destruct (Z.eqb_spec i (Z.of_nat (length (Environment.frames e)) - 1)).
  - intros Hwf. destruct (wf_holds _ _ Hwf) as (g & fs & Hg & Hfs).
    rewrite (add_var_run _ _ _ _ _ _ Hg Hfs), Hscope.
    by destruct (Z.eqb_spec i (Z.of_nat (length (Environment.frames e)) - 1)).
Qed.

End Refusals.

(** ** The global frame is shared *)

Section GlobalFrame.
Implicit Types (h : Heap) (e : Environment.t) (op : operation).

Lemma copy_global h e e1 h1 :
  Environment.copy e h = (Ok e1, h1) ->
  Environment.global_frame e1 = Environment.global_frame e.
Proof.
  unfold Environment.copy, bind.
  destruct (array_map _ _ h) as [[fs|y] h0]; [|done].
  by intros [= <- _].
Qed.

(** C8.  Whenever [copy], [set_var], [add_var], [add_frame] or
    [remove_frame] returns an environment, its global frame is the same
    object (the same location of the store) as the global frame of the
    environment it was called on. *)
Theorem global_frame_shared h e op e' h' :
  run op e h = (Ok e', h') ->
  Environment.global_frame e' = Environment.global_frame e.
Proof.
  destruct op as [|n v|n x| |]; simpl.
  - apply copy_global.
  - unfold Environment.set_var, bind.
    destruct (Environment.copy e h) as [[e1|y] h1] eqn:Ec; [|done].
    pose proof (copy_global _ _ _ _ Ec) as Hglobal.
    destruct (fst (Ast.env_pos n)) as [|i]; unfold ret, internal_assertion;
      simpl.
    + destruct (Frame.set_var _ n v h1) as [[[]|y] h3]; [|done].
      by intros [= <- _].
    + destruct (array_get _ i) as [l|]; simpl; [|done].
      destruct (Frame.set_var l n v h1) as [[[]|y] h3]; [|done].
      by intros [= <- _].
  - unfold Environment.add_var, bind.
    destruct (Environment.copy e h) as [[e1|y] h1] eqn:Ec; [|done].
    destruct (Environment.add_var_mut e1 n x h1) as [[e2|y] h2]; [|done].
    intros [= <- _]. by eapply copy_global.
  - unfold Environment.add_frame, bind.
    destruct (array_map _ _ h) as [[fs|y] h0]; [|done].
    by intros [= <- _].
  - unfold Environment.remove_frame, bind.
    destruct (internal_assertion _ _ h) as [[[]|y] h0]; [|done].
    destruct (array_map _ _ h0) as [[fs|y] h1]; [|done].
    by intros [= <- _].
Qed.

End GlobalFrame.

(** ** Binding with [add_var], then reading *)

Section AddVar.
Implicit Types (h : Heap) (e : Environment.t) (n : Ast.ResolvedName)
  (x : Ast.Expression).

(** A successful [add_var(e, n, x)] returns a well-formed environment in
    which [n] is bound: [lookup] of [n] returns [x]. *)
Lemma add_var_binds h e n x e' h' :
  env_wf h e ->
  Environment.add_var e n x h = (Ok e', h') ->
  env_wf h' e' /\ fst (Environment.lookup e' n h') = Ok x.
Proof.
  intros Hwf Hrun. destruct (wf_holds _ _ Hwf) as (g & fs & Hg & Hfs).
  pose proof (holds_length _ _ _ Hfs) as Hlen.
  pose proof (lookup_lt_Some _ _ _ Hg) as Hlt.
  rewrite (add_var_run _ _ _ _ _ _ Hg Hfs) in Hrun.
  destruct (fst (Ast.env_pos n)) as [|j] eqn:En.
  - destruct (frame_add_var g n x) as [g'|] eqn:Eg; [|done].
    injection Hrun as <- <-.
    assert (env_wf (<[Environment.global_frame e := g']> h ++ fs)
              (copied h e)) as Hwf'.
    { apply wf_copied; [done | done | apply length_insert]. }
    split; [done|]. rewrite lookup_frame, En by done.
    unfold addressed_frame. simpl.
    rewrite (store_global_read _ _ _ _ _ Hg).
    by eapply frame_lookup_add_var.
  - destruct (Z.eqb j _); [|done].
    destruct (array_get fs j) as [f|] eqn:Ef; [|done].
    destruct (frame_add_var f n x) as [f'|] eqn:Ef'; [|done].
    injection Hrun as <- <-.
    assert (env_wf (h ++ <[Z.to_nat j := f']> fs) (copied h e)) as Hwf'.
    { apply wf_copied; [done | by rewrite length_insert | done]. }
    split; [done|]. rewrite lookup_frame, En by done.
    rewrite addressed_frame_copied by (by rewrite ?length_insert).
    rewrite (array_get_insert_eq _ _ f) by done.
    by eapply frame_lookup_add_var.
Qed.

(** The environment of a new session is well formed. *)
Lemma empty_wf h e h' :
  Environment.empty h = (Ok e, h') -> env_wf h' e.
Proof.
  unfold Environment.empty, bind, Frame.new, alloc, ret. intros [= <- <-].
  split; simpl; [rewrite length_app; simpl; lia | constructor].
Qed.

End AddVar.

(** ** Reachable environments

    Every environment an operation returns is well formed in the store the
    operation leaves, and none of the frames of its stack is its global
    frame: the frames of the stack are new objects. *)

Section Reachable.
Implicit Types (h : Heap) (e : Environment.t) (op : operation).

Lemma wf_fresh (h0 ext : list Frame) (gl a k : nat) :
  a = length h0 -> (gl < a)%nat -> (k <= length ext)%nat ->
  env_wf (h0 ++ ext)
    {| Environment.global_frame := gl; Environment.frames := seq a k |}
  /\ gl ∉ seq a k.
Proof.
  intros -> Hg Hk. split; [split; simpl|].
  - rewrite length_app. lia.
  - apply Forall_seq. intros j Hj. rewrite length_app. lia.
  - rewrite elem_of_seq. lia.
Qed.

Lemma run_wf h e op e' h' :
  env_wf h e ->
  run op e h = (Ok e', h') ->
  env_wf h' e'
  /\ Environment.global_frame e' ∉ Environment.frames e'.
Proof.
  intros Hwf Hrun. destruct (wf_holds _ _ Hwf) as (g & fs & Hg & Hfs).
  pose proof (holds_length _ _ _ Hfs) as Hlen.
  pose proof (lookup_lt_Some _ _ _ Hg) as Hlt.
  destruct op as [|n v|n x| |]; simpl in Hrun.
  - rewrite (copy_run _ _ _ Hfs) in Hrun. injection Hrun as <- <-.
    apply wf_fresh; [done | done | lia].
  - rewrite (set_var_run _ _ _ _ _ _ Hg Hfs) in Hrun.
    destruct (fst (Ast.env_pos n)) as [|j].
    + destruct (frame_set_var g n v); [|done]. injection Hrun as <- <-.
      apply wf_fresh; [by rewrite length_insert | done | lia].
    + destruct (array_get fs j) as [f|]; [|done].
      destruct (frame_set_var f n v); [|done]. injection Hrun as <- <-.
      apply wf_fresh; [done | done | rewrite length_insert; lia].
  - rewrite (add_var_run _ _ _ _ _ _ Hg Hfs) in Hrun.
    destruct (fst (Ast.env_pos n)) as [|j].
    + destruct (frame_add_var g n x); [|done]. injection Hrun as <- <-.
      apply wf_fresh; [by rewrite length_insert | done | lia].
    + destruct (Z.eqb j _); [|done].
      destruct (array_get fs j) as [f|]; [|done].
      destruct (frame_add_var f n x); [|done]. injection Hrun as <- <-.
      apply wf_fresh; [done | done | rewrite length_insert; lia].
  - rewrite (add_frame_run _ _ _ Hfs) in Hrun. injection Hrun as <- <-.
    apply wf_fresh; [done | done | rewrite length_app; simpl; lia].
  - rewrite (remove_frame_run _ _ _ Hfs) in Hrun.
    destruct (Environment.frames e) as [|l ls]; [done|].
    injection Hrun as <- <-.
    apply wf_fresh; [done | done | rewrite length_take; simpl in *; lia].
Qed.

End Reachable.

(** ** The statements at work on the example session *)

Section Exercise.
Import Example.

Lemma example_wf : env_wf heap env.
Proof. split; simpl; repeat constructor. Defined.

Lemma example0_wf : env_wf heap0 env0.
Proof. split; simpl; repeat constructor. Defined.

(** C1 at work: [x], bound in the local frame, is set to 7 and read. *)
Lemma lookup_set_var_witness :
  env_wf heap env
  /\ fst (Environment.lookup env x_local heap) = Ok two
  /\ exists e' h',
       Environment.set_var env x_local (Ast.Number 7) heap = (Ok e', h')
       /\ Environment.lookup e' x_local h'
          = (Ok (Ast.Literal (Ast.Number 7)), h').
Proof.
  split; [exact example_wf|]. split; [reflexivity|].
  apply (lookup_set_var heap env x_local (Ast.Number 7) two);
    [exact example_wf | reflexivity].
Defined.

(** C2 as stated fails: after [set_var] of the global [x], the original
    environment reads the new value, not the one it read before. *)
Lemma set_var_global_changes_original :
  env_wf heap env
  /\ mutating (SetVar x_global (Ast.Number 7)) = true
  /\ failed (fst (run (SetVar x_global (Ast.Number 7)) env heap)) = false
  /\ fst (Environment.lookup env x_global heap) = Ok one
  /\ fst (Environment.lookup env x_global
            (snd (run (SetVar x_global (Ast.Number 7)) env heap)))
     = Ok (Ast.Literal (Ast.Number 7))
  /\ fst (Environment.lookup env x_global
            (snd (run (SetVar x_global (Ast.Number 7)) env heap)))
     <> fst (Environment.lookup env x_global heap).
Proof.
  split; [exact example_wf|]. do 4 (split; [reflexivity|]).
  intros H. vm_compute in H. discriminate H.
Qed.

(** C2 as amended at work: [set_var] of the local [x] leaves every lookup
    on the original as it was; [set_var] of the global [x] leaves the
    lookup of the local [y] as it was, and the original then reads the new
    value of the global [x]. *)
Lemma original_lookup_preserved_witness :
  env_wf heap env
  /\ (forall m,
        fst (Environment.lookup env m
               (snd (run (SetVar x_local (Ast.Number 7)) env heap)))
        = fst (Environment.lookup env m heap))
  /\ fst (Environment.lookup env y_local
            (snd (run (SetVar x_global (Ast.Number 7)) env heap)))
     = fst (Environment.lookup env y_local heap)
  /\ fst (Environment.lookup env x_global
            (snd (run (SetVar x_global (Ast.Number 7)) env heap)))
     = Ok (Ast.Literal (Ast.Number 7)).
Proof.
  split; [exact example_wf|]. split; [|split].
  - apply (proj1 (original_lookup_preserved heap env
                    (SetVar x_local (Ast.Number 7)) _ _
                    example_wf eq_refl)).
    reflexivity.
  - apply (proj1 (proj2 (original_lookup_preserved heap env
                    (SetVar x_global (Ast.Number 7)) _ _
                    example_wf eq_refl))) with (p := (Ast.global, 0)).
    + apply not_elem_of_cons. split; [discriminate | apply not_elem_of_nil].
    + reflexivity.
    + discriminate.
  - apply (proj1 (proj2 (proj2 (original_lookup_preserved heap env
                    (SetVar x_global (Ast.Number 7)) _ _
                    example_wf eq_refl)))
             x_global (Ast.Number 7) _ eq_refl eq_refl eq_refl).
Defined.

(** C3 at work: the local [x] is found; a name for slot 2 is not. *)
Lemma lookup_contract_witness :
  env_wf heap env
  /\ fst (Environment.lookup env x_local heap) = Ok two.
Proof.
  split; [exact example_wf|].
  apply (proj2 (proj2 (lookup_contract heap env x_local example_wf))).
  exists {| sym := "x"; ast := two |}. repeat split.
Defined.

(** C4 as stated fails: [z] is bound in no frame, and [lookup_name] throws
    instead of returning an empty optional. *)
Lemma lookup_name_unbound_throws :
  env_wf heap env
  /\ lookup_name_spec heap env z_unbound = None
  /\ Environment.lookup_name env z_unbound heap = (Throw ThrownNull, heap)
  /\ forall address,
       fst (Environment.lookup_name env z_unbound heap) <> Ok address.
Proof.
  split; [exact example_wf|]. split; [reflexivity|]. split; [reflexivity|].
  intros address. discriminate.
Qed.

(** C4 as amended at work: [x] is found in the innermost frame, at the
    slot of the local binding, not in the global frame. *)
Lemma lookup_name_searches_witness :
  env_wf heap env
  /\ fst (Environment.lookup_name env {| Ast.name_sym := "x" |} heap)
     = Ok (Ast.idx 0, 1).
Proof.
  split; [exact example_wf|].
  apply (proj2 (lookup_name_searches heap env {| Ast.name_sym := "x" |}
                  example_wf)).
Defined.

(** C5 at work: the global slot 0 is taken, and the empty session has no
    frame to remove. *)
Lemma add_var_occupied_remove_frame_empty_witness :
  env_wf heap env
  /\ binding_at heap env (Ast.env_pos x_global)
     = Some {| sym := "x"; ast := one |}
  /\ failed_assertion (fst (Environment.add_var env x_global two heap)) = true
  /\ env_wf heap0 env0
  /\ Environment.frames env0 = []
  /\ failed_assertion (fst (Environment.remove_frame env0 heap0)) = true.
Proof.
  split; [exact example_wf|]. split; [reflexivity|]. split.
  - apply (proj1 (add_var_occupied_remove_frame_empty heap env example_wf)
             x_global two {| sym := "x"; ast := one |}).
    reflexivity.
  - split; [exact example0_wf|]. split; [reflexivity|].
    apply (proj2 (add_var_occupied_remove_frame_empty heap0 env0
                    example0_wf)).
    reflexivity.
Defined.

(** C8 at work: pushing a frame keeps the global frame. *)
Lemma global_frame_shared_witness :
  run AddFrame env heap
  = (Ok {| Environment.global_frame := 0%nat;
           Environment.frames := [2%nat; 3%nat] |},
     snd (run AddFrame env heap))
  /\ Environment.global_frame
       {| Environment.global_frame := 0%nat;
          Environment.frames := [2%nat; 3%nat] |}
     = Environment.global_frame env.
Proof.
  split; [reflexivity|].
  apply (global_frame_shared heap env AddFrame _ (snd (run AddFrame env heap))).
  reflexivity.
Defined.

(** C9 at work: after the local [x] is set, the local [y] reads as before. *)
Lemma set_var_only_addressed_slot_witness :
  env_wf heap env
  /\ Environment.set_var env x_local (Ast.Number 7) heap
     = (Ok {| Environment.global_frame := 0%nat;
              Environment.frames := [2%nat] |},
        snd (Environment.set_var env x_local (Ast.Number 7) heap))
  /\ fst (Environment.lookup
            {| Environment.global_frame := 0%nat;
               Environment.frames := [2%nat] |} y_local
            (snd (Environment.set_var env x_local (Ast.Number 7) heap)))
     = fst (Environment.lookup env y_local heap).
Proof.
  split; [exact example_wf|]. split; [reflexivity|].
  apply (proj1 (set_var_only_addressed_slot heap env x_local (Ast.Number 7)
                  _ _ example_wf eq_refl) y_local).
  discriminate.
Defined.

(** C10 at work: with two frames on the stack, a name for scope 0 cannot
    be added, although frame 0 exists and its slot 5 is free. *)
Lemma add_var_only_innermost_witness :
  fst (Ast.env_pos {| Ast.sym := "w"; Ast.env_pos := (Ast.idx 0, 5) |})
  = Ast.idx 0
  /\ 0 <> Z.of_nat (length [1%nat; 1%nat]) - 1
  /\ Environment.add_var_mut
       {| Environment.global_frame := 0%nat;
          Environment.frames := [1%nat; 1%nat] |}
       {| Ast.sym := "w"; Ast.env_pos := (Ast.idx 0, 5) |} one heap
     = (Throw (InternalAssertionError
                 "Adding variable outside of current scope."), heap).
Proof.
  split; [reflexivity|]. split; [discriminate|].
  apply (add_var_only_innermost heap
           {| Environment.global_frame := 0%nat;
              Environment.frames := [1%nat; 1%nat] |}
           {| Ast.sym := "w"; Ast.env_pos := (Ast.idx 0, 5) |} one 0);
    [reflexivity | discriminate].
Defined.

End Exercise.

(** * Further properties of the environment *)

(** ** The frames addressed after [copy], [add_var], [add_frame],
       [remove_frame] *)

Section MoreAddressing.
Implicit Types (h : list Frame) (e : Environment.t)
  (n m : Ast.ResolvedName) (fs : list Frame).

Lemma addressed_frame_fresh (h0 ext : list Frame) (gl a k : nat) (i : Z) :
  a = length h0 -> k = length ext ->
  addressed_frame (h0 ++ ext)
    {| Environment.global_frame := gl; Environment.frames := seq a k |}
    (Ast.idx i)
  = array_get ext i.
Proof.
  intros -> ->. unfold addressed_frame, addressed_loc. simpl.
  rewrite array_get_copied.
  destruct (array_get ext i) as [f|] eqn:Ef; simpl; [|done].
  by apply lookup_copied.
Qed.

Lemma addressed_frame_global_app (h0 ext : list Frame) e e' :
  (Environment.global_frame e < length h0)%nat ->
  Environment.global_frame e' = Environment.global_frame e ->
  addressed_frame (h0 ++ ext) e' Ast.global
  = h0 !! Environment.global_frame e.
Proof.
  intros Hlt Hg. unfold addressed_frame. simpl. rewrite Hg.
  by apply lookup_app_l.
Qed.

(** Two environments that address the same frame in the scope of [m] give
    the same result for [lookup] of [m]. *)
Lemma lookup_by_frame h e h' e' m :
  env_wf h e -> env_wf h' e' ->
  addressed_frame h' e' (fst (Ast.env_pos m))
    = addressed_frame h e (fst (Ast.env_pos m)) ->
  fst (Environment.lookup e' m h') = fst (Environment.lookup e m h).
Proof. intros Hwf Hwf' E. rewrite !lookup_frame by done. by rewrite E. Qed.

Lemma array_get_app_l {A} (xs ys : list A) (i : Z) :
  i <> Z.of_nat (length xs) -> length ys = 1%nat ->
  array_get (xs ++ ys) i = array_get xs i.
Proof.
  intros Hi Hys. unfold array_get. destruct (Z.ltb_spec i 0); [done|].
  destruct (decide (Z.to_nat i < length xs)%nat).
  - by apply lookup_app_l.
  - rewrite !(proj2 (lookup_ge_None _ _)); [done | lia |].
    rewrite length_app. lia.
Qed.

Lemma array_get_app_last {A} (xs : list A) (x : A) :
  array_get (xs ++ [x]) (Z.of_nat (length xs)) = Some x.
Proof.
  apply array_get_Some. split; [lia|].
  rewrite Nat2Z.id, lookup_app_r, Nat.sub_diag; [done | lia].
Qed.

Lemma array_get_take {A} (xs : list A) (k : nat) (i : Z) :
  array_get (take k xs) i
  = if Z.ltb i (Z.of_nat k) then array_get xs i else None.
Proof.
  unfold array_get. destruct (Z.ltb_spec i 0), (Z.ltb_spec i (Z.of_nat k));
    try done; try lia.
  - apply lookup_take_lt. lia.
  - apply lookup_ge_None. rewrite length_take. lia.
Qed.

Lemma copy_frames h e :
  env_wf h e ->
  exists e' h',
    Environment.copy e h = (Ok e', h')
    /\ env_wf h' e'
    /\ length (Environment.frames e') = length (Environment.frames e)
    /\ forall s, addressed_frame h' e' s = addressed_frame h e s.
Proof.
  intros Hwf. destruct (wf_holds _ _ Hwf) as (g & fs & Hg & Hfs).
  pose proof (holds_length _ _ _ Hfs) as Hlen.
  pose proof (lookup_lt_Some _ _ _ Hg) as Hlt.
  exists (copied h e), (h ++ fs). split_and!.
  - by apply copy_run.
  - by apply wf_copied.
  - simpl. by rewrite length_seq.
  - intros [|i].
    + by apply addressed_frame_global_app.
    + rewrite (addressed_frame_idx _ _ _ _ Hfs).
      by apply addressed_frame_copied.
Qed.

Lemma add_var_frames h e n x e' h' :
  env_wf h e ->
  Environment.add_var e n x h = (Ok e', h') ->
  env_wf h' e'
  /\ length (Environment.frames e') = length (Environment.frames e)
  /\ (forall s, s <> fst (Ast.env_pos n) ->
        addressed_frame h' e' s = addressed_frame h e s)
  /\ (exists f f',
        addressed_frame h e (fst (Ast.env_pos n)) = Some f
        /\ addressed_frame h' e' (fst (Ast.env_pos n)) = Some f'
        /\ frame_add_var f n x = Ok f').
Proof.
  intros Hwf Hrun. destruct (wf_holds _ _ Hwf) as (g & fs & Hg & Hfs).
  pose proof (holds_length _ _ _ Hfs) as Hlen.
  pose proof (lookup_lt_Some _ _ _ Hg) as Hlt.
  rewrite (add_var_run _ _ _ _ _ _ Hg Hfs) in Hrun.
  destruct (fst (Ast.env_pos n)) as [|j] eqn:En.
  - destruct (frame_add_var g n x) as [g'|] eqn:Eg; [|done].
    injection Hrun as <- <-. split_and!.
    + apply wf_copied; [done | done | apply length_insert].
    + simpl. by rewrite length_seq.
    + intros [|i] Hs; [done|].
      rewrite (addressed_frame_idx _ _ _ _ Hfs).
      apply addressed_frame_copied; [done | apply length_insert].
    + exists g, g'. unfold addressed_frame. simpl.
      split_and!; [done | by eapply store_global_read | done].
  - destruct (Z.eqb j _); [|done].
    destruct (array_get fs j) as [f|] eqn:Ef; [|done].
    destruct (frame_add_var f n x) as [f'|] eqn:Ef'; [|done].
    injection Hrun as <- <-.
    assert (0 <= j) as Hj by (by apply array_get_Some in Ef as [? _]).
    split_and!.
    + apply wf_copied; [done | by rewrite length_insert | done].
    + simpl. by rewrite length_seq.
    + intros [|i] Hs.
      * by apply addressed_frame_global_app.
      * rewrite (addressed_frame_idx _ _ _ _ Hfs).
        rewrite addressed_frame_copied by (by rewrite ?length_insert).
        apply array_get_insert_ne; congruence.
    + exists f, f'. split_and!; [| | done].
      * by rewrite (addressed_frame_idx _ _ _ _ Hfs).
      * rewrite addressed_frame_copied by (by rewrite ?length_insert).
        by apply array_get_insert_eq with f.
Qed.

Lemma add_frame_frames h e :
  env_wf h e ->
  exists e' h',
    Environment.add_frame e h = (Ok e', h')
    /\ env_wf h' e'
    /\ length (Environment.frames e') = S (length (Environment.frames e))
    /\ (forall s, s <> Ast.idx (Z.of_nat (length (Environment.frames e))) ->
          addressed_frame h' e' s = addressed_frame h e s)
    /\ addressed_frame h' e'
         (Ast.idx (Z.of_nat (length (Environment.frames e))))
       = Some {| frame_items := JsMap.empty |}.
Proof.
  intros Hwf. destruct (wf_holds _ _ Hwf) as (g & fs & Hg & Hfs).
  pose proof (holds_length _ _ _ Hfs) as Hlen.
  pose proof (lookup_lt_Some _ _ _ Hg) as Hlt.
  eexists _, _. split; [by apply add_frame_run|].
  assert (length (Environment.frames e) + 1
          = length (fs ++ [ {| frame_items := JsMap.empty |} ]))%nat as Hk.
  { rewrite length_app. simpl. lia. }
  split_and!.
  - apply wf_fresh; [done | done | lia].
  - simpl. rewrite length_seq. lia.
  - intros [|i] Hs.
    + by apply addressed_frame_global_app.
    + rewrite (addressed_frame_idx _ _ _ _ Hfs).
      rewrite addressed_frame_fresh by done.
      apply array_get_app_l; [congruence | done].
  - rewrite addressed_frame_fresh by done.
    rewrite Hlen. apply array_get_app_last.
Qed.

Lemma remove_frame_frames h e :
  env_wf h e ->
  Environment.frames e <> [] ->
  exists e' h',
    Environment.remove_frame e h = (Ok e', h')
    /\ env_wf h' e'
    /\ S (length (Environment.frames e')) = length (Environment.frames e)
    /\ (forall s,
          s <> Ast.idx (Z.of_nat (length (Environment.frames e)) - 1) ->
          addressed_frame h' e' s = addressed_frame h e s)
    /\ addressed_frame h' e'
         (Ast.idx (Z.of_nat (length (Environment.frames e)) - 1))
       = None.
Proof.
  intros Hwf Hne. destruct (wf_holds _ _ Hwf) as (g & fs & Hg & Hfs).
  pose proof (holds_length _ _ _ Hfs) as Hlen.
  pose proof (lookup_lt_Some _ _ _ Hg) as Hlt.
  pose proof (remove_frame_run _ _ _ Hfs) as Hrun.
  destruct (Environment.frames e) as [|l ls] eqn:E; [done|].
  eexists _, _. split; [exact Hrun|].
  assert (length (l :: ls) - 1 = length (take (length fs - 1) fs))%nat
    as Hk.
  { rewrite length_take. lia. }
  split_and!.
  - apply wf_fresh; [done | done | lia].
  - simpl. rewrite length_seq. lia.
  - intros [|i] Hs.
    + unfold addressed_frame. simpl. by apply lookup_app_l.
    + assert (addressed_frame h e (Ast.idx i) = array_get fs i) as ->.
      { apply addressed_frame_idx. by rewrite E. }
      rewrite addressed_frame_fresh by done.
      rewrite array_get_take.
      destruct (Z.ltb_spec i (Z.of_nat (length fs - 1))); [done|].
      symmetry. apply array_get_None. right.
      assert (i <> Z.of_nat (length (l :: ls)) - 1) by congruence.
      simpl in *. lia.
  - rewrite addressed_frame_fresh by done.
    rewrite array_get_take.
    destruct (Z.ltb_spec (Z.of_nat (length (l :: ls)) - 1)
                (Z.of_nat (length fs - 1))); [|done].
    simpl in *. lia.
Qed.

End MoreAddressing.

(** ** When [set_var] and [add_var] succeed, and what they leave alone *)

Section WriteContracts.
Implicit Types (h : list Frame) (e : Environment.t)
  (n m : Ast.ResolvedName) (f : Frame).

Lemma frame_lookup_of_set_var f f' n v :
  frame_set_var f n v = Ok f' -> exists a, frame_lookup f n = Ok a.
Proof.
  unfold frame_set_var, frame_lookup.
  destruct (JsMap.get _ _) as [b|]; [|done].
  rewrite (String.eqb_sym (sym b)).
  destruct (String.eqb _ _); [eauto | done].
Qed.

Lemma frame_set_var_throws f n v y :
  frame_set_var f n v = Throw y -> is_assertion_error y = true.
Proof.
  unfold frame_set_var. destruct (JsMap.get _ _) as [b|];
    [destruct (String.eqb _ _)|]; by intros [= <-].
Qed.

(** X1.  In a well-formed store, [set_var(e, n, v)] returns an environment
    exactly when [lookup(e, n)] returns a node, whatever the value [v]; and
    when it fails, it fails on an internal assertion. *)
Theorem set_var_succeeds_iff_bound h e n v :
  env_wf h e ->
  ((exists e' h', Environment.set_var e n v h = (Ok e', h'))
   <-> (exists a, fst (Environment.lookup e n h) = Ok a))
  /\ failed (fst (Environment.set_var e n v h))
     = failed_assertion (fst (Environment.set_var e n v h)).
Proof.
  intros Hwf. split; [split|].
  - intros (e' & h' & Hrun).
    destruct (set_var_frames _ _ _ _ _ _ Hwf Hrun)
      as (_ & _ & _ & f & f' & Hf & _ & Hset).
    rewrite lookup_frame, Hf by done.
    by eapply frame_lookup_of_set_var.
  - intros [a Ha]. rewrite lookup_frame in Ha by done.
    destruct (addressed_frame h e _) as [f|] eqn:Ef; [|done].
    destruct (frame_set_var_of_lookup f n a v Ha) as [f' Hset].
    by eapply set_var_succeeds.
  - destruct (wf_holds _ _ Hwf) as (g & fs & Hg & Hfs).
    rewrite (set_var_run _ _ _ _ _ _ Hg Hfs).
    destruct (fst (Ast.env_pos n)) as [|j].
    + destruct (frame_set_var g n v) as [g'|y] eqn:Eg; simpl; [done|].
      symmetry. by eapply frame_set_var_throws.
    + destruct (array_get fs j) as [f|]; [|done].
      destruct (frame_set_var f n v) as [f'|y] eqn:Ef; simpl; [done|].
      symmetry. by eapply frame_set_var_throws.
Qed.

(** X2.  In a well-formed store, [add_var(e, n, x)] returns an environment
    exactly when the scope of [n] is the global scope or the index of the
    innermost frame, that frame exists, and the slot of [n] is free in
    it. *)
Theorem add_var_succeeds_iff h e n x :
  env_wf h e ->
  (exists e' h', Environment.add_var e n x h = (Ok e', h'))
  <-> (fst (Ast.env_pos n) = Ast.global
       \/ fst (Ast.env_pos n)
          = Ast.idx (Z.of_nat (length (Environment.frames e)) - 1))
      /\ exists f,
           addressed_frame h e (fst (Ast.env_pos n)) = Some f
           /\ JsMap.get (frame_items f) (snd (Ast.env_pos n)) = None.
Proof.
  intros Hwf. destruct (wf_holds _ _ Hwf) as (g & fs & Hg & Hfs).
  rewrite (add_var_run _ _ _ _ _ _ Hg Hfs).
  destruct (fst (Ast.env_pos n)) as [|j] eqn:En.
  - unfold addressed_frame. simpl. rewrite Hg.
    unfold frame_add_var, JsMap.has.
    destruct (JsMap.get (frame_items g) _) as [b|] eqn:Eb; simpl.
    + split; [by intros (? & ? & ?)|].
      intros [_ (f & [= <-] & ?)]. congruence.
    + split; [intros _; split; eauto | eauto].
  - rewrite (addressed_frame_idx _ _ _ _ Hfs).
    destruct (Z.eqb_spec j (Z.of_nat (length (Environment.frames e)) - 1))
      as [Ej|Ej].
    + destruct (array_get fs j) as [f|] eqn:Ef.
      * unfold frame_add_var, JsMap.has.
        destruct (JsMap.get (frame_items f) _) as [b|] eqn:Eb; simpl.
        -- split; [by intros (? & ? & ?)|].
           intros [_ (f0 & [= <-] & ?)]. congruence.
        -- split; [intros _; split; [right; congruence | eauto] | eauto].
      * split; [by intros (? & ? & ?) | by intros [_ (f0 & ? & _)]].
    + split; [by intros (? & ? & ?)|].
      intros [[?|?] _]; congruence.
Qed.

(** X3.  In a well-formed store, a successful [add_var(e, n, x)] returns an
    environment with the same number of frames in which every address
    other than that of [n] holds the binding it held in [e], so that
    [lookup] of a resolved name at such an address gives the result it gave
    in [e]. *)
Theorem add_var_only_new_slot h e n x e' h' :
  env_wf h e ->
  Environment.add_var e n x h = (Ok e', h') ->
  (forall m, Ast.env_pos m <> Ast.env_pos n ->
     binding_at h' e' (Ast.env_pos m) = binding_at h e (Ast.env_pos m)
     /\ fst (Environment.lookup e' m h') = fst (Environment.lookup e m h))
  /\ length (Environment.frames e') = length (Environment.frames e).
Proof.
  intros Hwf Hrun.
  destruct (add_var_frames _ _ _ _ _ _ Hwf Hrun)
    as (Hwf' & Hlen & Hother & f & f' & Hf & Hf' & Hadd).
  split; [|done]. intros m Hm.
  rewrite !lookup_frame by done. unfold binding_at.
  destruct (decide (fst (Ast.env_pos m) = fst (Ast.env_pos n))) as [Es|Es].
  - assert (snd (Ast.env_pos n) <> snd (Ast.env_pos m)) as Hslot.
    { intros Eslot. apply Hm.
      destruct (Ast.env_pos m), (Ast.env_pos n). simpl in *. congruence. }
    rewrite Es, Hf, Hf'.
    pose proof (frame_get_add_var_other _ _ _ _ _ Hadd Hslot) as Hget.
    split; [done | by apply frame_lookup_ext].
  - by rewrite (Hother _ Es).
Qed.

End WriteContracts.

(** ** Pushing and popping scopes, and copying *)

Section Scopes.
Implicit Types (h : list Frame) (e : Environment.t) (m : Ast.ResolvedName).

Lemma addressed_frame_past_end h e :
  addressed_frame h e (Ast.idx (Z.of_nat (length (Environment.frames e))))
  = None.
Proof.
  unfold addressed_frame, addressed_loc.
  rewrite (proj2 (array_get_None _ _)); [done | lia].
Qed.

(** X4.  In a well-formed store [add_frame] always succeeds.  The
    environment it returns is no longer in the global scope and has one
    frame more; a [lookup] in any scope that existed gives the result it
    gave before, and a [lookup] in the new innermost scope fails on the
    assertion that the slot is there: the new frame is empty. *)
Theorem add_frame_pushes_empty_scope h e :
  env_wf h e ->
  exists e' h',
    Environment.add_frame e h = (Ok e', h')
    /\ Environment.is_global_scope e' = false
    /\ length (Environment.frames e') = S (length (Environment.frames e))
    /\ (forall m,
          fst (Ast.env_pos m)
            <> Ast.idx (Z.of_nat (length (Environment.frames e))) ->
          fst (Environment.lookup e' m h') = fst (Environment.lookup e m h))
    /\ (forall m,
          fst (Ast.env_pos m)
            = Ast.idx (Z.of_nat (length (Environment.frames e))) ->
          fst (Environment.lookup e' m h')
          = Throw (InternalAssertionError
                     "Variable lookup frame out of range.")).
Proof.
  intros Hwf.
  destruct (add_frame_frames _ _ Hwf)
    as (e' & h' & Hrun & Hwf' & Hlen & Hold & Hnew).
  exists e', h'. split_and!; [done | | done | |].
  - unfold Environment.is_global_scope. by rewrite Hlen.
  - intros m Hm. apply lookup_by_frame; auto.
  - intros m Hm. by rewrite lookup_frame, Hm, Hnew.
Qed.

(** X5.  In a well-formed store [remove_frame] succeeds whenever the
    environment is not in the global scope.  The environment it returns has
    one frame less; a [lookup] in any remaining scope gives the result it
    gave before, and a [lookup] in the scope that was removed fails on the
    assertion that the scope index is in range. *)
Theorem remove_frame_pops_innermost h e :
  env_wf h e ->
  Environment.is_global_scope e = false ->
  exists e' h',
    Environment.remove_frame e h = (Ok e', h')
    /\ S (length (Environment.frames e')) = length (Environment.frames e)
    /\ (forall m,
          fst (Ast.env_pos m)
            <> Ast.idx (Z.of_nat (length (Environment.frames e)) - 1) ->
          fst (Environment.lookup e' m h') = fst (Environment.lookup e m h))
    /\ (forall m,
          fst (Ast.env_pos m)
            = Ast.idx (Z.of_nat (length (Environment.frames e)) - 1) ->
          fst (Environment.lookup e' m h')
          = Throw (InternalAssertionError
                     "Variable lookup env out of range.")).
Proof.
  intros Hwf Hscope.
  assert (Environment.frames e <> []) as Hne.
  { unfold Environment.is_global_scope in Hscope. intros E.
    by rewrite E in Hscope. }
  destruct (remove_frame_frames _ _ Hwf Hne)
    as (e' & h' & Hrun & Hwf' & Hlen & Hold & Hgone).
  exists e', h'. split_and!; [done | done | |].
  - intros m Hm. apply lookup_by_frame; auto.
  - intros m Hm. by rewrite lookup_frame, Hm, Hgone.
Qed.

(** X6.  In a well-formed store, pushing a frame and popping it again
    succeeds and gives an environment with as many frames as the first, in
    which every [lookup] gives the result it gave in the first. *)
Theorem remove_frame_add_frame h e :
  env_wf h e ->
  exists e1 h1 e2 h2,
    Environment.add_frame e h = (Ok e1, h1)
    /\ Environment.remove_frame e1 h1 = (Ok e2, h2)
    /\ length (Environment.frames e2) = length (Environment.frames e)
    /\ forall m,
         fst (Environment.lookup e2 m h2) = fst (Environment.lookup e m h).
Proof.
  intros Hwf.
  destruct (add_frame_frames _ _ Hwf)
    as (e1 & h1 & Hrun1 & Hwf1 & Hlen1 & Hold1 & Hnew1).
  assert (Environment.frames e1 <> []) as Hne.
  { intros E. by rewrite E in Hlen1. }
  destruct (remove_frame_frames _ _ Hwf1 Hne)
    as (e2 & h2 & Hrun2 & Hwf2 & Hlen2 & Hold2 & Hgone2).
  assert (Z.of_nat (length (Environment.frames e1)) - 1
          = Z.of_nat (length (Environment.frames e))) as Hlast by lia.
  rewrite Hlast in Hold2, Hgone2.
  exists e1, h1, e2, h2. split_and!; [done | done | lia |].
  intros m. apply lookup_by_frame; [done | done |].
  destruct (decide (fst (Ast.env_pos m)
                    = Ast.idx (Z.of_nat (length (Environment.frames e)))))
    as [->|Hm].
  - by rewrite Hgone2, addressed_frame_past_end.
  - by rewrite Hold2, Hold1.
Qed.

(** X7.  In a well-formed store [copy] always succeeds; the copy has as
    many frames, every [lookup] on it gives the result it gives on the
    original, and every frame of its stack is a new object of the store. *)
Theorem copy_is_equivalent_and_fresh h e :
  env_wf h e ->
  exists e' h',
    Environment.copy e h = (Ok e', h')
    /\ length (Environment.frames e') = length (Environment.frames e)
    /\ (forall m,
          fst (Environment.lookup e' m h') = fst (Environment.lookup e m h))
    /\ Forall (fun l => (length h <= l < length h')%nat)
         (Environment.frames e').
Proof.
  intros Hwf.
  destruct (copy_frames _ _ Hwf) as (e' & h' & Hrun & Hwf' & Hlen & Hsame).
  exists e', h'. split_and!; [done | done | |].
  - intros m. by apply lookup_by_frame.
  - destruct (wf_holds _ _ Hwf) as (g & fs & Hg & Hfs).
    rewrite (copy_run _ _ _ Hfs) in Hrun. injection Hrun as <- <-.
    simpl. apply Forall_seq. intros j Hj.
    rewrite length_app, <- (holds_length _ _ _ Hfs). lia.
Qed.

End Scopes.

(** ** Writing in place, and what a failure leaves behind *)

Section InPlace.
Implicit Types (h : list Frame) (e : Environment.t)
  (n m : Ast.ResolvedName) (op : operation).

(** In a separate environment, two scopes that address the same object
    are the same scope. *)
Lemma addressed_loc_inj e s1 s2 (l : nat) :
  env_separate e ->
  addressed_loc e s1 = Some l -> addressed_loc e s2 = Some l -> s1 = s2.
Proof.
  unfold env_separate. intros [Hg Hfs]%NoDup_cons.
  destruct s1 as [|i], s2 as [|j]; simpl; try done.
  - intros [= <-] [_ Hj]%array_get_Some. exfalso. apply Hg.
    by eapply list_elem_of_lookup_2.
  - intros [_ Hi]%array_get_Some [= <-]. exfalso. apply Hg.
    by eapply list_elem_of_lookup_2.
  - intros [? Hi]%array_get_Some [? Hj]%array_get_Some. f_equal.
    pose proof (NoDup_lookup _ _ _ _ Hfs Hi Hj). lia.
Qed.

(** X8.  In a well-formed store, a successful [add_var_mut(e, n, x)]
    returns [e] itself and allocates nothing: it writes the addressed
    frame in place, so that [e] now looks [n] up to [x]; and when the
    frames of [e] are different objects, every [lookup] on [e] at another
    address gives the result it gave before. *)
Theorem add_var_mut_in_place h e n x e' h' :
  env_wf h e ->
  Environment.add_var_mut e n x h = (Ok e', h') ->
  e' = e
  /\ length h' = length h
  /\ fst (Environment.lookup e n h') = Ok x
  /\ (env_separate e ->
      forall m, Ast.env_pos m <> Ast.env_pos n ->
        fst (Environment.lookup e m h') = fst (Environment.lookup e m h)).
Proof.
  intros Hwf Hrun. rewrite add_var_mut_run in Hrun.
  assert (exists l f f',
            addressed_loc e (fst (Ast.env_pos n)) = Some l
            /\ h !! l = Some f /\ frame_add_var f n x = Ok f'
            /\ e' = e /\ h' = <[l := f']> h)
    as (l & f & f' & Hl & Hf & Hadd & -> & ->).
  { destruct (fst (Ast.env_pos n)) as [|j] eqn:En.
    - destruct (addressed_loc_wf h e Ast.global _ Hwf eq_refl) as [g Hg].
      rewrite (Frame_add_var_run _ _ _ _ _ Hg) in Hrun.
      destruct (frame_add_var g n x) as [g'|] eqn:Eg; [|done].
      injection Hrun as <- <-. by exists (Environment.global_frame e), g, g'.
    - destruct (Z.eqb j _); [|done].
      destruct (array_get (Environment.frames e) j) as [l|] eqn:El; [|done].
      destruct (addressed_loc_wf h e (Ast.idx j) _ Hwf El) as [f Hf].
      rewrite (Frame_add_var_run _ _ _ _ _ Hf) in Hrun.
      destruct (frame_add_var f n x) as [f'|] eqn:Ef; [|done].
      injection Hrun as <- <-. by exists l, f, f'. }
  pose proof (lookup_lt_Some _ _ _ Hf) as Hlt.
  split_and!; [done | apply length_insert | |].
  - rewrite lookup_run, Hl. simpl.
    rewrite list_lookup_insert_eq by done.
    by eapply frame_lookup_add_var.
  - intros Hsep m Hm. rewrite !lookup_run. simpl.
    destruct (addressed_loc e (fst (Ast.env_pos m))) as [l'|] eqn:El';
      [|done].
    destruct (decide (l' = l)) as [->|Hne].
    + rewrite list_lookup_insert_eq, Hf by done.
      apply frame_lookup_ext.
      eapply frame_get_add_var_other; [exact Hadd|].
      intros Eslot. apply Hm.
      pose proof (addressed_loc_inj _ _ _ _ Hsep El' Hl) as Escope.
      destruct (Ast.env_pos m), (Ast.env_pos n). simpl in *. congruence.
    + by rewrite list_lookup_insert_ne.
Qed.

(** An operation that fails has at most allocated: the store it leaves
    is the store it found, with new objects after it. *)
Lemma run_failed_store h e op y h' :
  env_wf h e ->
  run op e h = (Throw y, h') ->
  exists ext, h' = h ++ ext.
Proof.
  intros Hwf Hrun. destruct (wf_holds _ _ Hwf) as (g & fs & Hg & Hfs).
  destruct op as [|n v|n x| |]; simpl in Hrun.
  - by rewrite (copy_run _ _ _ Hfs) in Hrun.
  - rewrite (set_var_run _ _ _ _ _ _ Hg Hfs) in Hrun.
    destruct (fst (Ast.env_pos n)) as [|j].
    + destruct (frame_set_var g n v); [done|].
      injection Hrun as _ <-. eauto.
    + destruct (array_get fs j) as [f|];
        [destruct (frame_set_var f n v); [done|]|];
        injection Hrun as _ <-; eauto.
  - rewrite (add_var_run _ _ _ _ _ _ Hg Hfs) in Hrun.
    destruct (fst (Ast.env_pos n)) as [|j].
    + destruct (frame_add_var g n x); [done|].
      injection Hrun as _ <-. eauto.
    + destruct (Z.eqb j _);
        [destruct (array_get fs j) as [f|];
           [destruct (frame_add_var f n x); [done|]|]|];
        injection Hrun as _ <-; eauto.
  - by rewrite (add_frame_run _ _ _ Hfs) in Hrun.
  - rewrite (remove_frame_run _ _ _ Hfs) in Hrun.
    destruct (Environment.frames e); [|done].
    injection Hrun as _ <-. exists []. by rewrite app_nil_r.
Qed.

(** X9.  In a well-formed store, an operation that fails ([copy],
    [set_var], [add_var], [add_frame] or [remove_frame] throwing) has
    written to no object that existed, the global frame included: every
    location of the store holds what it held, and every [lookup] on the
    environment gives the result it gave before. *)
Theorem failed_operation_writes_nothing h e op y h' :
  env_wf h e ->
  run op e h = (Throw y, h') ->
  (forall l, (l < length h)%nat -> h' !! l = h !! l)
  /\ forall m,
       fst (Environment.lookup e m h') = fst (Environment.lookup e m h).
Proof.
  intros Hwf Hrun.
  destruct (run_failed_store _ _ _ _ _ Hwf Hrun) as [ext ->].
  split; [intros l Hl; by apply lookup_app_l|].
  intros m. rewrite !lookup_run. simpl.
  destruct (addressed_loc e _) as [l|] eqn:El; [|done].
  destruct (addressed_loc_wf _ _ _ _ Hwf El) as [f Hf].
  by rewrite (lookup_app_l_Some _ _ _ _ Hf), Hf.
Qed.

(** X10.  In a well-formed store, a successful [set_var] or [add_var] of
    a name in the global scope is seen by the environment it was called
    on: afterwards that environment, too, looks the name up to the new
    node. *)
Theorem global_write_seen_by_original h e n :
  env_wf h e ->
  fst (Ast.env_pos n) = Ast.global ->
  (forall v e' h',
     Environment.set_var e n v h = (Ok e', h') ->
     fst (Environment.lookup e n h') = Ok (Ast.Literal v))
  /\ (forall x e' h',
        Environment.add_var e n x h = (Ok e', h') ->
        fst (Environment.lookup e n h') = Ok x).
Proof.
  intros Hwf Hscope. destruct (wf_holds _ _ Hwf) as (g & fs & Hg & Hfs).
  split.
  - intros v e' h' Hrun.
    rewrite (set_var_run _ _ _ _ _ _ Hg Hfs), Hscope in Hrun.
    destruct (frame_set_var g n v) as [g'|] eqn:Eg; [|done].
    injection Hrun as <- <-. rewrite lookup_run, Hscope. simpl.
    rewrite (store_global_read _ _ _ _ _ Hg).
    by eapply frame_lookup_set_var.
  - intros x e' h' Hrun.
    rewrite (add_var_run _ _ _ _ _ _ Hg Hfs), Hscope in Hrun.
    destruct (frame_add_var g n x) as [g'|] eqn:Eg; [|done].
    injection Hrun as <- <-. rewrite lookup_run, Hscope. simpl.
    rewrite (store_global_read _ _ _ _ _ Hg).
    by eapply frame_lookup_add_var.
Qed.

(** X11.  In a well-formed store, the frame stack of the environment an
    operation returns consists of exactly the objects the operation
    allocated, in order of allocation: no frame of the stack is shared with
    the environment the operation was called on, and nothing else was
    allocated. *)
Theorem returned_stack_is_what_was_allocated h e op e' h' :
  env_wf h e ->
  run op e h = (Ok e', h') ->
  Environment.frames e' = seq (length h) (length h' - length h).
Proof.
  intros Hwf Hrun. destruct (wf_holds _ _ Hwf) as (g & fs & Hg & Hfs).
  pose proof (holds_length _ _ _ Hfs) as Hlen.
  destruct op as [|n v|n x| |]; simpl in Hrun.
  - rewrite (copy_run _ _ _ Hfs) in Hrun. injection Hrun as <- <-.
    simpl. rewrite length_app. f_equal. lia.
  - rewrite (set_var_run _ _ _ _ _ _ Hg Hfs) in Hrun.
    destruct (fst (Ast.env_pos n)) as [|j].
    + destruct (frame_set_var g n v); [|done]. injection Hrun as <- <-.
      simpl. rewrite length_app, length_insert. f_equal. lia.
    + destruct (array_get fs j) as [f|]; [|done].
      destruct (frame_set_var f n v); [|done]. injection Hrun as <- <-.
      simpl. rewrite length_app, length_insert. f_equal. lia.
  - rewrite (add_var_run _ _ _ _ _ _ Hg Hfs) in Hrun.
    destruct (fst (Ast.env_pos n)) as [|j].
    + destruct (frame_add_var g n x); [|done]. injection Hrun as <- <-.
      simpl. rewrite length_app, length_insert. f_equal. lia.
    + destruct (Z.eqb j _); [|done].
      destruct (array_get fs j) as [f|]; [|done].
      destruct (frame_add_var f n x); [|done]. injection Hrun as <- <-.
      simpl. rewrite length_app, length_insert. f_equal. lia.
  - rewrite (add_frame_run _ _ _ Hfs) in Hrun. injection Hrun as <- <-.
    cbn [Environment.frames]. rewrite !length_app. f_equal. simpl. lia.
  - rewrite (remove_frame_run _ _ _ Hfs) in Hrun.
    destruct (Environment.frames e) as [|l ls]; [done|].
    injection Hrun as <- <-.
    cbn [Environment.frames]. rewrite length_app, length_take. f_equal.
    simpl in *. lia.
Qed.

(** X12.  [Environment.empty()] in any store allocates one empty global
    frame and returns an environment in the global scope on which every
    [lookup] fails on an internal assertion and [lookup_name] of every name
    throws. *)
Theorem empty_environment (h : list Frame) :
  exists e,
    Environment.empty h = (Ok e, h ++ [ {| frame_items := JsMap.empty |} ])
    /\ Environment.is_global_scope e = true
    /\ (forall m,
          failed_assertion
            (fst (Environment.lookup e m
                    (h ++ [ {| frame_items := JsMap.empty |} ]))) = true)
    /\ (forall name,
          failed
            (fst (Environment.lookup_name e name
                    (h ++ [ {| frame_items := JsMap.empty |} ]))) = true).
Proof.
  eexists. split; [reflexivity|]. split; [reflexivity|].
  assert ((h ++ [ {| frame_items := JsMap.empty |} ]) !! length h
          = Some {| frame_items := JsMap.empty |}) as Hg.
  { by rewrite lookup_app_r, Nat.sub_diag. }
  split.
  - intros m. rewrite lookup_run. simpl.
    destruct (fst (Ast.env_pos m)) as [|i]; simpl.
    + by rewrite Hg.
    + rewrite (proj2 (array_get_None _ _)); [done | simpl; lia].
  - intros name. unfold Environment.lookup_name, bind. simpl.
    by rewrite (Frame_lookup_name_run _ _ _ _ Hg).
Qed.

End InPlace.

(** ** [add_var], then [lookup] *)

Section AddThenLookup.
Implicit Types (h : list Frame) (e : Environment.t) (n : Ast.ResolvedName).

(** X13.  In a well-formed store, after a successful [add_var(e, n, x)]
    the returned environment looks [n] up to exactly [x], and the lookup
    leaves the store as it is. *)
Theorem lookup_add_var h e n x e' h' :
  env_wf h e ->
  Environment.add_var e n x h = (Ok e', h') ->
  Environment.lookup e' n h' = (Ok x, h').
Proof.
  intros Hwf Hrun.
  destruct (add_var_frames _ _ _ _ _ _ Hwf Hrun)
    as (Hwf' & _ & _ & f & f' & _ & Hf' & Hadd).
  rewrite (surjective_pairing (Environment.lookup e' n h')).
  rewrite lookup_keeps_store, lookup_frame, Hf' by done.
  by rewrite (frame_lookup_add_var _ _ _ _ Hadd).
Qed.

End AddThenLookup.

(** ** [lookup_name]: which address it returns *)

Section Resolution.
Implicit Types (h : list Frame) (e : Environment.t) (name : Ast.Name)
  (f : Frame) (s : string).

Lemma stack_slot_past_end h e (k : nat) s :
  (length (Environment.frames e) <= k)%nat -> stack_slot h e k s = None.
Proof.
  intros Hk. unfold stack_slot.
  by rewrite (proj2 (lookup_ge_None _ _) Hk).
Qed.

(** The loop started at [p1] returns the address found in the frame of
    greatest index below [p1] that holds the symbol, or runs to its end
    when no frame below [p1] holds it. *)
Lemma lookup_name_while_finds h e name (p1 : nat) :
  env_wf h e ->
  (p1 <= length (Environment.frames e))%nat ->
  exists r,
    Environment.lookup_name_while e name p1 h = (Ok r, h)
    /\ match r with
       | Some (scope, slot) =>
           exists j : nat,
             scope = Ast.idx (Z.of_nat j) /\ (j < p1)%nat
             /\ stack_slot h e j (Ast.name_sym name) = Some slot
             /\ forall k, (j < k < p1)%nat ->
                  stack_slot h e k (Ast.name_sym name) = None
       | None =>
           forall k, (k < p1)%nat ->
             stack_slot h e k (Ast.name_sym name) = None
       end.
Proof.
  intros Hwf. induction p1 as [|p1 IH]; intros Hp1.
  - exists None. split; [done|]. intros k Hk. lia.
  - simpl Environment.lookup_name_while.
    destruct (lookup_lt_is_Some_2 (Environment.frames e) p1) as [l Hl];
      [lia|].
    destruct (lookup_lt_is_Some_2 h l) as [f Hf].
    { eapply (Forall_lookup_1 _ _ _ _ (proj2 Hwf)). exact Hl. }
    rewrite Hl. unfold bind.
    rewrite (Frame_lookup_name_run _ _ _ _ Hf).
    assert (stack_slot h e p1 (Ast.name_sym name)
            = first_slot f (Ast.name_sym name)) as Hslot.
    { unfold stack_slot. by rewrite Hl, Hf. }
    destruct (first_slot f (Ast.name_sym name)) as [p2|] eqn:Ep2.
    + exists (Some (Ast.idx (Z.of_nat p1), p2)). split; [done|].
      exists p1. split_and!; [done | lia | done |]. intros k Hk. lia.
    + destruct IH as (r & Hrun & Hr); [lia|].
      exists r. split; [done|]. destruct r as [[scope slot]|].
      * destruct Hr as (j & -> & Hj & Hfound & Habove).
        exists j. split_and!; [done | lia | done |].
        intros k Hk. destruct (decide (k = p1)) as [->|?]; [done|].
        apply Habove. lia.
      * intros k Hk. destruct (decide (k = p1)) as [->|?]; [done|].
        apply Hr. lia.
Qed.

(** The three outcomes of [lookup_name]. *)
Lemma lookup_name_outcome h e name :
  env_wf h e ->
  match fst (Environment.lookup_name e name h) with
  | Ok (Ast.idx i, slot) =>
      exists j : nat,
        i = Z.of_nat j
        /\ stack_slot h e j (Ast.name_sym name) = Some slot
        /\ forall k, (j < k)%nat ->
             stack_slot h e k (Ast.name_sym name) = None
  | Ok (Ast.global, slot) =>
      (forall k, stack_slot h e k (Ast.name_sym name) = None)
      /\ global_slot h e (Ast.name_sym name) = Some slot
  | Throw _ =>
      (forall k, stack_slot h e k (Ast.name_sym name) = None)
      /\ global_slot h e (Ast.name_sym name) = None
  end.
Proof.
  intros Hwf. unfold Environment.lookup_name, bind.
  destruct (lookup_name_while_finds h e name
              (length (Environment.frames e)) Hwf (le_n _))
    as (r & -> & Hr).
  destruct r as [[scope slot]|]; simpl.
  - destruct Hr as (j & -> & Hj & Hfound & Habove).
    exists j. split_and!; [done | done |]. intros k Hk.
    destruct (decide (k < length (Environment.frames e))%nat).
    + apply Habove. lia.
    + apply stack_slot_past_end. lia.
  - assert (forall k, stack_slot h e k (Ast.name_sym name) = None) as Hnone.
    { intros k. destruct (decide (k < length (Environment.frames e))%nat).
      - by apply Hr.
      - apply stack_slot_past_end. lia. }
    destruct (lookup_lt_is_Some_2 h _ (proj1 Hwf)) as [g Hg].
    rewrite (Frame_lookup_name_run _ _ _ _ Hg). unfold global_slot.
    rewrite Hg. by destruct (first_slot g _).
Qed.

(** X14.  In a well-formed store, when [lookup_name] returns an address in
    the frame stack, the frame at that index holds the symbol (the slot
    returned is the first of that frame with the symbol) and no frame of
    greater index, that is, no frame further in, holds it; when it returns
    an address in the global frame, no frame of the stack holds the symbol
    and the global frame does. *)
Theorem lookup_name_innermost h e name scope slot :
  env_wf h e ->
  fst (Environment.lookup_name e name h) = Ok (scope, slot) ->
  match scope with
  | Ast.idx i =>
      exists j : nat,
        i = Z.of_nat j
        /\ stack_slot h e j (Ast.name_sym name) = Some slot
        /\ forall k, (j < k)%nat ->
             stack_slot h e k (Ast.name_sym name) = None
  | Ast.global =>
      (forall k, stack_slot h e k (Ast.name_sym name) = None)
      /\ global_slot h e (Ast.name_sym name) = Some slot
  end.
Proof.
  intros Hwf Hrun. pose proof (lookup_name_outcome h e name Hwf) as H.
  rewrite Hrun in H. by destruct scope.
Qed.

(** An entry found by symbol is the entry [get] finds by its key, when the
    keys are pairwise different. *)
Lemma first_slot_get f s (k : Z) :
  frame_ok f ->
  first_slot f s = Some k ->
  exists b, JsMap.get (frame_items f) k = Some b /\ sym b = s.
Proof.
  unfold frame_ok, first_slot, JsMap.entries.
  induction (frame_items f) as [|[k0 b0] items IH]; [done|].
  rewrite fmap_cons. intros [Hk0 Hnd]%NoDup_cons. simpl.
  destruct (String.eqb_spec (sym b0) s) as [Es|Es].
  - intros [= <-]. exists b0. by rewrite Z.eqb_refl.
  - intros Hfind. destruct (IH Hnd Hfind) as (b & Hb & Hs).
    exists b. split; [|done].
    destruct (Z.eqb_spec k0 k) as [->|_]; [|done].
    exfalso. apply Hk0. clear -Hb.
    induction items as [|[k1 b1] items IH]; [done|].
    simpl in Hb. rewrite fmap_cons.
    destruct (Z.eqb_spec k1 k) as [->|_]; [left | right; auto].
Qed.

(** A frame whose slot [k] holds symbol [s] is found to hold [s]. *)
Lemma get_first_slot f s (k : Z) (b : FrameSymbol) :
  JsMap.get (frame_items f) k = Some b -> sym b = s ->
  first_slot f s <> None.
Proof.
  unfold first_slot, JsMap.entries. intros Hget Hs.
  induction (frame_items f) as [|[k0 b0] items IH]; [done|].
  simpl in *. destruct (String.eqb_spec (sym b0) s) as [_|Es]; [done|].
  destruct (Z.eqb k0 k); [congruence | auto].
Qed.

(** X15.  In a well-formed store whose maps have pairwise different keys
    (as every [Map] has), the address [lookup_name] returns for a name
    resolves it: [lookup] of the resolved name made of the symbol and that
    address returns the node bound there. *)
Theorem lookup_name_resolves h e name address :
  env_wf h e ->
  store_ok h ->
  fst (Environment.lookup_name e name h) = Ok address ->
  exists b,
    binding_at h e address = Some b
    /\ sym b = Ast.name_sym name
    /\ fst (Environment.lookup e
              {| Ast.sym := Ast.name_sym name; Ast.env_pos := address |} h)
       = Ok (ast b).
Proof.
  intros Hwf Hok Hrun. destruct address as [scope slot].
  pose proof (lookup_name_outcome h e name Hwf) as H. rewrite Hrun in H.
  assert (exists f, addressed_frame h e scope = Some f
                    /\ first_slot f (Ast.name_sym name) = Some slot)
    as (f & Hf & Hslot).
  { destruct scope as [|i].
    - destruct H as [_ Hg]. unfold global_slot in Hg.
      unfold addressed_frame. simpl.
      destruct (h !! Environment.global_frame e) as [g|]; [eauto | done].
    - destruct H as (j & -> & Hj & _). unfold stack_slot in Hj.
      unfold addressed_frame, addressed_loc, array_get.
      destruct (Z.ltb_spec (Z.of_nat j) 0); [lia|]. rewrite Nat2Z.id.
      destruct (Environment.frames e !! j) as [l|]; [|done].
      destruct (h !! l) as [f|]; [eauto | done]. }
  assert (frame_ok f) as Hfok.
  { unfold addressed_frame in Hf.
    destruct (addressed_loc e scope) as [l|]; [|done].
    by eapply (Forall_lookup_1 _ _ _ _ Hok). }
  destruct (first_slot_get _ _ _ Hfok Hslot) as (b & Hb & Hs).
  exists b. split_and!; [| done |].
  - unfold binding_at. simpl. by rewrite Hf.
  - rewrite lookup_frame by done. simpl. rewrite Hf.
    unfold frame_lookup. simpl. rewrite Hb, <- Hs.
    by rewrite String.eqb_refl.
Qed.

(** X16.  In a well-formed store, [lookup_name] succeeds for every symbol
    that some resolved name looks up: when [lookup(n)] returns a node,
    [lookup_name] of the symbol of [n] returns an address. *)
Theorem lookup_name_finds_bound h e (n : Ast.ResolvedName) a :
  env_wf h e ->
  fst (Environment.lookup e n h) = Ok a ->
  exists address,
    fst (Environment.lookup_name e {| Ast.name_sym := Ast.sym n |} h)
    = Ok address.
Proof.
  intros Hwf Hlook.
  pose proof (lookup_name_outcome h e {| Ast.name_sym := Ast.sym n |} Hwf)
    as H.
  destruct (fst (Environment.lookup_name e _ h)) as [address|y]; [eauto|].
  exfalso. destruct H as [Hstack Hglobal]. simpl in *.
  rewrite lookup_frame in Hlook by done.
  destruct (addressed_frame h e _) as [f|] eqn:Ef; [|done].
  unfold frame_lookup in Hlook.
  destruct (JsMap.get _ _) as [b|] eqn:Eb; [|done].
  destruct (String.eqb_spec (Ast.sym n) (sym b)) as [Es|]; [|done].
  apply (get_first_slot f (Ast.sym n) _ b Eb); [done|].
  unfold addressed_frame, addressed_loc in Ef.
  destruct (fst (Ast.env_pos n)) as [|i].
  - unfold global_slot in Hglobal. by rewrite Ef in Hglobal.
  - destruct (array_get _ i) as [l|] eqn:El; [|done].
    apply array_get_Some in El as [_ El].
    specialize (Hstack (Z.to_nat i)). unfold stack_slot in Hstack.
    by rewrite El, Ef in Hstack.
Qed.

End Resolution.

(** ** Reading never writes *)

Section ReadOnly.
Implicit Types (h : list Frame) (e : Environment.t) (name : Ast.Name).

Lemma Frame_lookup_name_store h (l : nat) name :
  snd (Frame.lookup_name l name h) = h.
Proof.
  unfold Frame.lookup_name, bind, deref. by destruct (h !! l).
Qed.

Lemma lookup_name_while_store h e name (p1 : nat) :
  snd (Environment.lookup_name_while e name p1 h) = h.
Proof.
  induction p1 as [|p1 IH]; simpl; [done|].
  destruct (Environment.frames e !! p1) as [l|]; [|done].
  unfold bind. pose proof (Frame_lookup_name_store h l name) as Hl.
  destruct (Frame.lookup_name l name h) as [[[p2|]|y] h1];
    simpl in Hl; subst h1; [done | exact IH | done].
Qed.

(** X17.  In any store, [lookup] and [lookup_name] leave the store exactly
    as they found it, whether they return or throw. *)
Theorem lookups_leave_the_store h e (n : Ast.ResolvedName) name :
  snd (Environment.lookup e n h) = h
  /\ snd (Environment.lookup_name e name h) = h.
Proof.
  split; [apply lookup_keeps_store|].
  unfold Environment.lookup_name, bind.
  pose proof (lookup_name_while_store h e name
                (length (Environment.frames e))) as Hw.
  destruct (Environment.lookup_name_while e name _ h) as [[[r|]|y] h1];
    simpl in Hw; subst h1; [done | | done].
  pose proof (Frame_lookup_name_store h (Environment.global_frame e) name)
    as Hg.
  destruct (Frame.lookup_name _ name h) as [[[p2|]|y] h1];
    simpl in Hg; by subst h1.
Qed.

End ReadOnly.

(** ** The maps of the store keep their keys distinct *)

Section UniqueKeys.
Implicit Types (h : list Frame) (e : Environment.t) (f : Frame)
  (op : operation).

Lemma frame_set_var_ok f f' (n : Ast.ResolvedName) v :
  frame_ok f -> frame_set_var f n v = Ok f' -> frame_ok f'.
Proof.
  unfold frame_set_var, frame_ok.
  destruct (JsMap.get _ _) as [b|]; [|done].
  destruct (String.eqb _ _); [|done]. intros Hnd [= <-]. simpl.
  by apply JsMap_set_NoDup.
Qed.

Lemma frame_add_var_ok f f' (n : Ast.ResolvedName) x :
  frame_ok f -> frame_add_var f n x = Ok f' -> frame_ok f'.
Proof.
  unfold frame_add_var, frame_ok. destruct (JsMap.has _ _); [done|].
  intros Hnd [= <-]. simpl. by apply JsMap_set_NoDup.
Qed.

Lemma holds_ok h (ls : list nat) (fs : list Frame) :
  store_ok h -> holds h ls fs -> Forall frame_ok fs.
Proof.
  intros Hok Hfs. induction Hfs as [|l f ls fs Hl _ IH]; constructor;
    [|done].
  by eapply (Forall_lookup_1 _ _ _ _ Hok).
Qed.

(** Whatever an operation does, it leaves a store whose maps have
    pairwise different keys, when it found one. *)
Lemma run_store_ok h e op r h' :
  env_wf h e -> store_ok h -> run op e h = (r, h') -> store_ok h'.
Proof.
  intros Hwf Hok Hrun. destruct (wf_holds _ _ Hwf) as (g & fs & Hg & Hfs).
  pose proof (holds_ok _ _ _ Hok Hfs) as Hfsok.
  assert (frame_ok g) as Hgok by (by eapply (Forall_lookup_1 _ _ _ _ Hok)).
  unfold store_ok in *.
  destruct op as [|n v|n x| |]; simpl in Hrun.
  - rewrite (copy_run _ _ _ Hfs) in Hrun. injection Hrun as <- <-.
    by apply Forall_app.
  - rewrite (set_var_run _ _ _ _ _ _ Hg Hfs) in Hrun.
    destruct (fst (Ast.env_pos n)) as [|j].
    + destruct (frame_set_var g n v) as [g'|] eqn:Eg;
        injection Hrun as <- <-; apply Forall_app; split; try done.
      apply Forall_insert; [done | by eapply frame_set_var_ok].
    + destruct (array_get fs j) as [f|] eqn:Ef;
        [destruct (frame_set_var f n v) as [f'|] eqn:Ef'|];
        injection Hrun as <- <-; apply Forall_app; split; try done.
      apply Forall_insert; [done|].
      apply array_get_Some in Ef as [_ Ef].
      eapply frame_set_var_ok; [|exact Ef'].
      by eapply (Forall_lookup_1 _ _ _ _ Hfsok).
  - rewrite (add_var_run _ _ _ _ _ _ Hg Hfs) in Hrun.
    destruct (fst (Ast.env_pos n)) as [|j].
    + destruct (frame_add_var g n x) as [g'|] eqn:Eg;
        injection Hrun as <- <-; apply Forall_app; split; try done.
      apply Forall_insert; [done | by eapply frame_add_var_ok].
    + destruct (Z.eqb j _);
        [destruct (array_get fs j) as [f|] eqn:Ef;
           [destruct (frame_add_var f n x) as [f'|] eqn:Ef'|]|];
        injection Hrun as <- <-; apply Forall_app; split; try done.
      apply Forall_insert; [done|].
      apply array_get_Some in Ef as [_ Ef].
      eapply frame_add_var_ok; [|exact Ef'].
      by eapply (Forall_lookup_1 _ _ _ _ Hfsok).
  - rewrite (add_frame_run _ _ _ Hfs) in Hrun. injection Hrun as <- <-.
    apply Forall_app. split; [done|]. apply Forall_app. split; [done|].
    constructor; [|done]. unfold frame_ok. simpl. apply NoDup_nil_2.
  - rewrite (remove_frame_run _ _ _ Hfs) in Hrun.
    destruct (Environment.frames e); injection Hrun as <- <-; [done|].
    apply Forall_app. split; [done|]. by apply Forall_take.
Qed.

End UniqueKeys.

(** ** Printing expressions *)

Section PrintingFacts.
Variable number_toString : Z -> string.

(** X18.  For every expression of the L5 syntax tree, [debug] and
    [toString] return the same string, and neither depends on the
    indentation argument. *)
Theorem debug_is_toString (e : L5.Expression) (i j : Z) :
  L5Print.debug number_toString e i = L5Print.toString number_toString e j.
Proof.
  induction e as [value tokens | id | r | pred IHp cons_ IHc alt IHa tokens
                 | op first IH1 second IH2 tokens
                 | op first IH1 second IH2 tokens
                 | op first IH1 tokens]; simpl.
  - done.
  - done.
  - done.
  - by rewrite IHp, IHc, IHa.
  - by rewrite IH1, IH2.
  - by rewrite IH1, IH2.
  - by rewrite IH1.
Qed.

End PrintingFacts.

(** ** A copied frame is its own object *)

Section FrameCopy.
Implicit Types (h : list Frame) (f : Frame) (n : Ast.ResolvedName).

Lemma Frame_add_var_other h (l l0 : nat) f f0 n x r h2 :
  h !! l = Some f -> h !! l0 = Some f0 -> l0 <> l ->
  Frame.add_var l n x h = (r, h2) -> h2 !! l0 = Some f0.
Proof.
  intros Hl Hl0 Hne. rewrite (Frame_add_var_run _ _ _ _ _ Hl).
  destruct (frame_add_var f n x); intros [= _ <-]; [|done].
  by rewrite list_lookup_insert_ne.
Qed.

Lemma Frame_set_var_other h (l l0 : nat) f f0 n v r h2 :
  h !! l = Some f -> h !! l0 = Some f0 -> l0 <> l ->
  Frame.set_var l n v h = (r, h2) -> h2 !! l0 = Some f0.
Proof.
  intros Hl Hl0 Hne. rewrite (Frame_set_var_run _ _ _ _ _ Hl).
  destruct (frame_set_var f n v); intros [= _ <-]; [|done].
  by rewrite list_lookup_insert_ne.
Qed.

(** X19.  [Frame.copy] of an allocated frame returns a new object with the
    same slots, and the two are independent: whatever [add_var] or
    [set_var] does afterwards to one of them, the other holds what it
    held. *)
Theorem Frame_copy_independent h (l : nat) f :
  h !! l = Some f ->
  exists (l' : nat) h1,
    Frame.copy l h = (Ok l', h1)
    /\ l' <> l /\ h1 !! l' = Some f /\ h1 !! l = Some f
    /\ (forall n x r h2,
          Frame.add_var l' n x h1 = (r, h2) -> h2 !! l = Some f)
    /\ (forall n v r h2,
          Frame.set_var l' n v h1 = (r, h2) -> h2 !! l = Some f)
    /\ (forall n x r h2,
          Frame.add_var l n x h1 = (r, h2) -> h2 !! l' = Some f)
    /\ (forall n v r h2,
          Frame.set_var l n v h1 = (r, h2) -> h2 !! l' = Some f).
Proof.
  intros Hl. pose proof (lookup_lt_Some _ _ _ Hl) as Hlt.
  exists (length h), (h ++ [f]).
  assert ((h ++ [f]) !! length h = Some f) as Hnew.
  { by rewrite lookup_app_r, Nat.sub_diag. }
  assert ((h ++ [f]) !! l = Some f) as Hold by (by apply lookup_app_l_Some).
  assert (length h <> l) as Hne by lia.
  split_and!; [by apply Frame_copy_run | done | done | done | | | |].
  - intros n x r h2. by eapply Frame_add_var_other.
  - intros n v r h2. by eapply Frame_set_var_other.
  - intros n x r h2. by eapply Frame_add_var_other.
  - intros n v r h2. by eapply Frame_set_var_other.
Qed.

End FrameCopy.

(** ** The further statements at work on the example session *)

Section FurtherExercise.
Import Example.

Lemma example_store_ok : store_ok heap.
Proof.
  unfold store_ok, frame_ok, heap. simpl.
  repeat (apply Forall_cons; split); [| | constructor].
  - change (NoDup [0]). apply NoDup_singleton.
  - change (NoDup [0; 1]). apply NoDup_cons. split; [|apply NoDup_singleton].
    intros H%list_elem_of_singleton. discriminate H.
Defined.

(** A name for the free slot 5 of the innermost (and only) local frame. *)
Lemma set_var_succeeds_iff_bound_witness :
  env_wf heap env
  /\ exists e' h',
       Environment.set_var env x_local (Ast.Number 7) heap = (Ok e', h').
Proof.
  split; [exact example_wf|].
  apply (proj1 (set_var_succeeds_iff_bound heap env x_local (Ast.Number 7)
                  example_wf)).
  exists two. reflexivity.
Defined.

Lemma add_var_succeeds_iff_witness :
  env_wf heap env
  /\ exists e' h',
       Environment.add_var env
         {| Ast.sym := "w"; Ast.env_pos := (Ast.idx 0, 5) |} one heap
       = (Ok e', h').
Proof.
  split; [exact example_wf|].
  apply (add_var_succeeds_iff heap env
           {| Ast.sym := "w"; Ast.env_pos := (Ast.idx 0, 5) |} one
           example_wf).
  split; [right; reflexivity|].
  eexists. split; reflexivity.
Defined.

Lemma add_var_only_new_slot_witness :
  env_wf heap env
  /\ fst (Environment.add_var env
            {| Ast.sym := "w"; Ast.env_pos := (Ast.idx 0, 5) |} one heap)
     = Ok {| Environment.global_frame := 0%nat;
             Environment.frames := [2%nat] |}
  /\ fst (Environment.lookup
            {| Environment.global_frame := 0%nat;
               Environment.frames := [2%nat] |} x_local
            (snd (Environment.add_var env
                    {| Ast.sym := "w"; Ast.env_pos := (Ast.idx 0, 5) |}
                    one heap)))
     = fst (Environment.lookup env x_local heap).
Proof.
  split; [exact example_wf|]. split; [reflexivity|].
  apply (proj1 (add_var_only_new_slot heap env
                  {| Ast.sym := "w"; Ast.env_pos := (Ast.idx 0, 5) |} one
                  _ _ example_wf eq_refl) x_local).
  discriminate.
Defined.

Lemma add_frame_pushes_empty_scope_witness :
  env_wf heap env
  /\ exists e' h',
       Environment.add_frame env heap = (Ok e', h')
       /\ Environment.is_global_scope e' = false.
Proof.
  split; [exact example_wf|].
  destruct (add_frame_pushes_empty_scope heap env example_wf)
    as (e' & h' & Hrun & Hscope & _).
  exists e', h'. split; assumption.
Defined.

Lemma remove_frame_pops_innermost_witness :
  env_wf heap env
  /\ Environment.is_global_scope env = false
  /\ exists e' h',
       Environment.remove_frame env heap = (Ok e', h')
       /\ S (length (Environment.frames e')) = 1%nat.
Proof.
  split; [exact example_wf|]. split; [reflexivity|].
  destruct (remove_frame_pops_innermost heap env example_wf eq_refl)
    as (e' & h' & Hrun & Hlen & _).
  exists e', h'. split; assumption.
Defined.

Lemma remove_frame_add_frame_witness :
  env_wf heap env
  /\ exists e2 h2,
       forall m,
         fst (Environment.lookup e2 m h2)
         = fst (Environment.lookup env m heap).
Proof.
  split; [exact example_wf|].
  destruct (remove_frame_add_frame heap env example_wf)
    as (e1 & h1 & e2 & h2 & _ & _ & _ & Hsame).
  exists e2, h2. exact Hsame.
Defined.

Lemma copy_is_equivalent_and_fresh_witness :
  env_wf heap env
  /\ exists e' h',
       Environment.copy env heap = (Ok e', h')
       /\ length (Environment.frames e') = 1%nat.
Proof.
  split; [exact example_wf|].
  destruct (copy_is_equivalent_and_fresh heap env example_wf)
    as (e' & h' & Hrun & Hlen & _).
  exists e', h'. split; assumption.
Defined.

Lemma add_var_mut_in_place_witness :
  env_wf heap env
  /\ fst (Environment.add_var_mut env
            {| Ast.sym := "w"; Ast.env_pos := (Ast.idx 0, 5) |} one heap)
     = Ok env
  /\ fst (Environment.lookup env
            {| Ast.sym := "w"; Ast.env_pos := (Ast.idx 0, 5) |}
            (snd (Environment.add_var_mut env
                    {| Ast.sym := "w"; Ast.env_pos := (Ast.idx 0, 5) |}
                    one heap)))
     = Ok one.
Proof.
  split; [exact example_wf|]. split; [reflexivity|].
  apply (add_var_mut_in_place heap env
           {| Ast.sym := "w"; Ast.env_pos := (Ast.idx 0, 5) |} one
           _ _ example_wf eq_refl).
Defined.

(** [add_var] of the global [x], whose slot is taken, fails. *)
Lemma failed_operation_writes_nothing_witness :
  env_wf heap env
  /\ failed (fst (run (AddVar x_global two) env heap)) = true
  /\ forall m,
       fst (Environment.lookup env m
              (snd (run (AddVar x_global two) env heap)))
       = fst (Environment.lookup env m heap).
Proof.
  split; [exact example_wf|]. split; [reflexivity|].
  apply (failed_operation_writes_nothing heap env (AddVar x_global two)
           _ _ example_wf eq_refl).
Defined.

Lemma global_write_seen_by_original_witness :
  env_wf heap env
  /\ fst (Ast.env_pos x_global) = Ast.global
  /\ fst (Environment.lookup env x_global
            (snd (Environment.set_var env x_global (Ast.Number 7) heap)))
     = Ok (Ast.Literal (Ast.Number 7)).
Proof.
  split; [exact example_wf|]. split; [reflexivity|].
  apply (proj1 (global_write_seen_by_original heap env x_global
                  example_wf eq_refl) (Ast.Number 7) _ _ eq_refl).
Defined.

Lemma returned_stack_is_what_was_allocated_witness :
  env_wf heap env
  /\ Environment.frames
       {| Environment.global_frame := 0%nat;
          Environment.frames := [2%nat; 3%nat] |}
     = seq (length heap)
         (length (snd (run AddFrame env heap)) - length heap).
Proof.
  split; [exact example_wf|].
  apply (returned_stack_is_what_was_allocated heap env AddFrame
           _ _ example_wf eq_refl).
Defined.

Lemma lookup_add_var_witness :
  env_wf heap env
  /\ Environment.lookup
       {| Environment.global_frame := 0%nat;
          Environment.frames := [2%nat] |}
       {| Ast.sym := "w"; Ast.env_pos := (Ast.idx 0, 5) |}
       (snd (Environment.add_var env
               {| Ast.sym := "w"; Ast.env_pos := (Ast.idx 0, 5) |}
               one heap))
     = (Ok one,
        snd (Environment.add_var env
               {| Ast.sym := "w"; Ast.env_pos := (Ast.idx 0, 5) |}
               one heap)).
Proof.
  split; [exact example_wf|].
  apply (lookup_add_var heap env
           {| Ast.sym := "w"; Ast.env_pos := (Ast.idx 0, 5) |} one
           _ _ example_wf eq_refl).
Defined.

(** [x] is bound globally and, at slot 1, in the local frame: the local
    binding is the one found. *)
Lemma lookup_name_innermost_witness :
  env_wf heap env
  /\ fst (Environment.lookup_name env {| Ast.name_sym := "x" |} heap)
     = Ok (Ast.idx 0, 1)
  /\ exists j : nat,
       0 = Z.of_nat j
       /\ stack_slot heap env j "x" = Some 1
       /\ forall k, (j < k)%nat -> stack_slot heap env k "x" = None.
Proof.
  split; [exact example_wf|]. split; [reflexivity|].
  apply (lookup_name_innermost heap env {| Ast.name_sym := "x" |}
           (Ast.idx 0) 1 example_wf eq_refl).
Defined.

Lemma lookup_name_resolves_witness :
  env_wf heap env
  /\ store_ok heap
  /\ fst (Environment.lookup_name env {| Ast.name_sym := "x" |} heap)
     = Ok (Ast.idx 0, 1)
  /\ exists b,
       binding_at heap env (Ast.idx 0, 1) = Some b
       /\ sym b = "x"
       /\ fst (Environment.lookup env
                 {| Ast.sym := "x"; Ast.env_pos := (Ast.idx 0, 1) |} heap)
          = Ok (ast b).
Proof.
  split; [exact example_wf|]. split; [exact example_store_ok|].
  split; [reflexivity|].
  apply (lookup_name_resolves heap env {| Ast.name_sym := "x" |}
           (Ast.idx 0, 1) example_wf example_store_ok eq_refl).
Defined.

Lemma lookup_name_finds_bound_witness :
  env_wf heap env
  /\ fst (Environment.lookup env x_global heap) = Ok one
  /\ exists address,
       fst (Environment.lookup_name env {| Ast.name_sym := "x" |} heap)
       = Ok address.
Proof.
  split; [exact example_wf|]. split; [reflexivity|].
  apply (lookup_name_finds_bound heap env x_global one example_wf eq_refl).
Defined.

Lemma Frame_copy_independent_witness :
  heap !! 1%nat
  = Some {| frame_items :=
              [(0, {| sym := "y"; ast := Ast.Literal (Ast.Boolean true) |});
               (1, {| sym := "x"; ast := two |})] |}
  /\ exists (l' : nat) h1,
       Frame.copy 1%nat heap = (Ok l', h1) /\ l' <> 1%nat.
Proof.
  split; [reflexivity|].
  destruct (Frame_copy_independent heap 1%nat _ eq_refl)
    as (l' & h1 & Hrun & Hne & _).
  exists l', h1. split; assumption.
Defined.

End FurtherExercise.
